(** * afkmc2: seeding procedures for k-means

    A shallow embedding of [afkmc2/afkmc2.py] (k-means++ seeding and its
    Markov-chain approximations KMC² and assumption-free KMC²) and the
    properties of the four procedures [kmpp], [kmc2], [afkmc2] and
    [afkmc2_mem].

    Modelling conventions.
    - A NumPy [float64] is a [float]: an exact rational or one of the IEEE
      special values.  Finite arithmetic is exact (rounding, overflow and the
      sign of zero are not modelled); division by zero and the special values
      follow IEEE 754, as NumPy scalars and arrays do (a warning, no
      exception).  Over exact numbers [np.linalg.norm(v)**2] is the sum of the
      squares of [v].
    - NumPy arrays live in a store ([heap]) and are passed by reference
      ([loc]); [np.zeros] and [np.empty] allocate, and a row assignment
      copies the values into the target array.
    - [np.random] is an abstract [RandomSource]; the procedures thread its
      state.  [np.empty] hands out whatever the memory holds: the field
      [uninit] of the state.
    - Code runs in the monad [M]: store and random state passing, with the
      Python exceptions the source can raise.

    Contents: the numbers, the random source, the store and the four
    procedures; a logic of runs ([wp]) and the invariant of the seeding
    loops; the arithmetic of distances, of distinct points and of
    normalisation; the simulation of [afkmc2] by [afkmc2_mem] over a zeroed
    memo table; what a run may write ([frame]); and the properties [C1] to
    [C10] with the runs that illustrate them, on a scripted random source. *)

From Stdlib Require Import QArith Lqa ZArith Lia.
From stdpp Require Import base gmap list.

(** ** Numbers *)

Inductive float : Type :=
  | Finite (q : Q)
  | PInf
  | NInf
  | NaN.

Definition Qltb (a b : Q) : bool := negb (Qle_bool b a).

Definition Fneg (x : float) : float :=
  match x with
  | Finite q => Finite (- q)
  | PInf => NInf
  | NInf => PInf
  | NaN => NaN
  end.

Definition Fadd (x y : float) : float :=
  match x, y with
  | NaN, _ | _, NaN => NaN
  | Finite a, Finite b => Finite (a + b)
  | PInf, NInf | NInf, PInf => NaN
  | PInf, _ | _, PInf => PInf
  | NInf, _ | _, NInf => NInf
  end.

Definition Fsub (x y : float) : float := Fadd x (Fneg y).

(** The infinity with the sign of [a], or NaN for [a] zero. *)
Definition inf_of_sign (a : Q) : float :=
  match (a ?= 0)%Q with
  | Eq => NaN
  | Gt => PInf
  | Lt => NInf
  end.

Definition Fmul (x y : float) : float :=
  match x, y with
  | NaN, _ | _, NaN => NaN
  | Finite a, Finite b => Finite (a * b)
  | Finite a, PInf | PInf, Finite a => inf_of_sign a
  | Finite a, NInf | NInf, Finite a => inf_of_sign (- a)
  | PInf, PInf | NInf, NInf => PInf
  | PInf, NInf | NInf, PInf => NInf
  end.

Definition Fdiv (x y : float) : float :=
  match x, y with
  | NaN, _ | _, NaN => NaN
  | Finite a, Finite b =>
      if Qeq_bool b 0 then inf_of_sign a else Finite (a / b)
  | Finite _, (PInf | NInf) => Finite 0
  | PInf, Finite b => if Qle_bool 0 b then PInf else NInf
  | NInf, Finite b => if Qle_bool 0 b then NInf else PInf
  | (PInf | NInf), (PInf | NInf) => NaN
  end.

(** [x < y]; every comparison with NaN is false. *)
Definition Fltb (x y : float) : bool :=
  match x, y with
  | NaN, _ | _, NaN => false
  | Finite a, Finite b => Qltb a b
  | NInf, (Finite _ | PInf) => true
  | Finite _, PInf => true
  | _, _ => false
  end.

Definition Fleb (x y : float) : bool :=
  match x, y with
  | NaN, _ | _, NaN => false
  | Finite a, Finite b => Qle_bool a b
  | NInf, _ => true
  | _, PInf => true
  | _, _ => false
  end.

Definition Fgtb (x y : float) : bool := Fltb y x.
Definition Fgeb (x y : float) : bool := Fleb y x.

(** Python truth value of a float: [not v] holds exactly for zero. *)
Definition Fis_zero (x : float) : bool :=
  match x with
  | Finite q => Qeq_bool q 0
  | _ => false
  end.

(** [np.sum] *)
Definition Fsum (l : list float) : float := foldr Fadd (Finite 0) l.

(** [cumsum]: the running sums, the first one being the first entry. *)
Fixpoint cumsum_from (acc : float) (l : list float) : list float :=
  match l with
  | [] => []
  | x :: l' => Fadd acc x :: cumsum_from (Fadd acc x) l'
  end.

Definition cumsum (l : list float) : list float :=
  match l with
  | [] => []
  | x :: l' => x :: cumsum_from x l'
  end.

(** [np.linalg.norm(x - c)**2] *)
Definition sqdist (x c : list float) : float :=
  Fsum (zip_with (λ a b, Fmul (Fsub a b) (Fsub a b)) x c).

(** [np.where(v >= r)[0]]: the indices, in order, of the entries [>= r]. *)
Fixpoint where_ge (v : list float) (r : float) (i : nat) : list nat :=
  match v with
  | [] => []
  | c :: v' => if Fgeb c r then i :: where_ge v' r (S i) else where_ge v' r (S i)
  end.

(** Python's [min]: the first smallest entry, compared with [<]. *)
Definition min_of (x : float) (l : list float) : float :=
  fold_left (λ cur y, if Fltb y cur then y else cur) l x.

(** A vector of probabilities, as [np.random.choice(n, p=...)] requires. *)
Definition prob_vector (p : list float) : Prop :=
  p ≠ [] ∧
  Forall (λ x, ∃ v, x = Finite v ∧ (0 <= v)%Q) p ∧
  ∃ s, Fsum p = Finite s ∧ (s == 1)%Q.

(** ** The random source

    [rand_index n] is [np.random.choice(n)] for [n > 0], [rand_uniform] is
    [np.random.uniform()], and [rand_weighted p] is
    [np.random.choice(len(p), p=p)], which raises ([None]) when it rejects
    [p].  The laws are the contract of these services: an index in range, a
    number in [0, 1), and an index in range for a vector of probabilities. *)

Class RandomSource (G : Type) : Type := {
  rand_index : nat → G → nat * G;
  rand_uniform : G → Q * G;
  rand_weighted : list float → G → option nat * G;
  rand_index_lt : ∀ n g, 0 < n → (rand_index n g).1 < n;
  rand_uniform_range : ∀ g, (0 <= (rand_uniform g).1)%Q ∧ ((rand_uniform g).1 < 1)%Q;
  rand_weighted_lt : ∀ p g, prob_vector p →
    ∃ i, (rand_weighted p g).1 = Some i ∧ i < length p
}.

(** ** Store, exceptions and the monad *)

Definition loc : Type := positive.

(** A two-dimensional array of shape [(length rows, ncols)]. *)
Record ndarray : Type := NdArray {
  ncols : nat;
  rows : list (list float)
}.

Inductive exn : Type :=
  | IndexError
  | ValueError
  | ZeroDivisionError
  | InvalidReference.  (* a reference to no array: not reachable from Python *)

Inductive result (A : Type) : Type :=
  | Ok (a : A)
  | Raise (e : exn).
Arguments Ok {A} a.
Arguments Raise {A} e.

Section Procedures.

Context {G : Type} `{RandomSource G}.

Record state : Type := State {
  rng : G;
  heap : gmap loc ndarray;
  uninit : nat → nat → float
}.

Definition M (A : Type) : Type := state → result A * state.

#[export] Instance M_ret : MRet M := λ A a s, (Ok a, s).

#[export] Instance M_bind : MBind M := λ A B f m s,
  match m s with
  | (Ok a, s') => f a s'
  | (Raise e, s') => (Raise e, s')
  end.

Definition raise {A : Type} (e : exn) : M A := λ s, (Raise e, s).

(** *** Arrays *)

Definition get_array (a : loc) : M ndarray := λ s,
  match heap s !! a with
  | Some arr => (Ok arr, s)
  | None => (Raise InvalidReference, s)
  end.

Definition put_array (a : loc) (arr : ndarray) : M unit := λ s,
  (Ok (), State (rng s) (<[a := arr]> (heap s)) (uninit s)).

Definition alloc (arr : ndarray) : M loc := λ s,
  let a := fresh (dom (heap s)) in
  (Ok a, State (rng s) (<[a := arr]> (heap s)) (uninit s)).

(** [np.zeros((k, d))] *)
Definition np_zeros (k : Z) (d : nat) : M loc :=
  if (k <? 0)%Z then raise ValueError
  else alloc (NdArray d (replicate (Z.to_nat k) (replicate d (Finite 0)))).

(** [np.empty((n, k))]: the entries are not initialised. *)
Definition np_empty (n : nat) (k : Z) : M loc := λ s,
  (if (k <? 0)%Z then raise ValueError
   else alloc (NdArray (Z.to_nat k)
          (map (λ i, map (uninit s i) (seq 0 (Z.to_nat k))) (seq 0 n)))) s.

(** [a.shape] *)
Definition shape (a : loc) : M (nat * nat) :=
  arr ← get_array a; mret (length (rows arr), ncols arr).

(** [a[i, :]] read *)
Definition get_row (a : loc) (i : nat) : M (list float) :=
  arr ← get_array a;
  match rows arr !! i with
  | Some r => mret r
  | None => raise IndexError
  end.

(** [a[i, :] = v]: the values of [v] are copied into row [i] of [a].  In
    this code [v] is a row of the dataset and [a] has as many columns. *)
Definition set_row (a : loc) (i : nat) (v : list float) : M unit :=
  arr ← get_array a;
  if decide (i < length (rows arr))
  then put_array a (NdArray (ncols arr) (<[i := v]> (rows arr)))
  else raise IndexError.

(** [a[i, j]] read *)
Definition get_cell (a : loc) (i j : nat) : M float :=
  r ← get_row a i;
  match r !! j with
  | Some v => mret v
  | None => raise IndexError
  end.

(** [a[i, j] = v] *)
Definition set_cell (a : loc) (i j : nat) (v : float) : M unit :=
  r ← get_row a i;
  if decide (j < length r) then set_row a i (<[j := v]> r) else raise IndexError.

(** [for x in a]: the rows of [a] *)
Definition get_rows (a : loc) : M (list (list float)) :=
  arr ← get_array a; mret (rows arr).

(** [v[i]] for a one-dimensional [v] *)
Definition index (v : list float) (i : nat) : M float :=
  match v !! i with
  | Some x => mret x
  | None => raise IndexError
  end.

(** *** Random draws *)

Definition set_rng (g : G) (s : state) : state := State g (heap s) (uninit s).

(** [np.random.choice(n)] *)
Definition random_choice (n : nat) : M nat := λ s,
  if decide (n = 0) then (Raise ValueError, s)
  else let '(i, g) := rand_index n (rng s) in (Ok i, set_rng g s).

(** [np.random.uniform()] *)
Definition random_uniform : M float := λ s,
  let '(u, g) := rand_uniform (rng s) in (Ok (Finite u), set_rng g s).

(** [np.random.choice(n, p=q)] *)
Definition random_choice_p (n : nat) (q : list float) : M nat := λ s,
  if decide (n = 0) then (Raise ValueError, s)
  else if decide (length q = n) then
    match rand_weighted q (rng s) with
    | (Some i, g) => (Ok i, set_rng g s)
    | (None, g) => (Raise ValueError, set_rng g s)
    end
  else (Raise ValueError, s).

(** *** Python helpers *)

(** [range(a, b)] for [0 <= a] *)
Definition py_range (a b : Z) : list nat := seq (Z.to_nat a) (Z.to_nat (b - a)).

(** [for a in l: body(a)] *)
Fixpoint for_each {A : Type} (l : list A) (body : A → M unit) : M unit :=
  match l with
  | [] => mret ()
  | a :: l' => body a;; for_each l' body
  end.

(** A loop that updates local variables, of type [T]. *)
Fixpoint for_fold {A T : Type} (l : list A) (body : T → A → M T) (st : T) : M T :=
  match l with
  | [] => mret st
  | a :: l' => st' ← body st a; for_fold l' body st'
  end.

(** [min(l)] *)
Definition py_min (l : list float) : M float :=
  match l with
  | [] => raise ValueError
  | x :: l' => mret (min_of x l')
  end.

(** [np.where(v >= r)[0][0]] *)
Definition first_where_ge (v : list float) (r : float) : M nat :=
  match where_ge v r 0 with
  | [] => raise IndexError
  | i :: _ => mret i
  end.

(** [1/(2.0*n)] on Python floats *)
Definition py_inv_2n (n : nat) : M float :=
  if decide (n = 0) then raise ZeroDivisionError
  else mret (Finite (1 / (2 * inject_Z (Z.of_nat n)))).

(** ** The procedures *)

(** [min([np.linalg.norm(x - centers[j, :])**2 for j in range(i)])] *)
Definition min_dist_row (centers : loc) (x : list float) (i : nat) : M float :=
  ds ← mapM (λ j, c ← get_row centers j; mret (sqdist x c)) (seq 0 i);
  py_min ds.

(** [min([np.linalg.norm(X[x, :] - centers[j, :])**2 for j in range(i)])] *)
Definition min_dist (X centers : loc) (x i : nat) : M float :=
  ds ← mapM (λ j, xr ← get_row X x; c ← get_row centers j; mret (sqdist xr c))
            (seq 0 i);
  py_min ds.

(** [centers = np.zeros((k, X.shape[1])); centers[0, :] = X[np.random.choice(X.shape[0]), :]] *)
Definition first_center (X : loc) (k : Z) : M loc :=
  '(_, d) ← shape X;
  centers ← np_zeros k d;
  '(n, _) ← shape X;
  i0 ← random_choice n;
  x0 ← get_row X i0;
  set_row centers 0 x0;;
  mret centers.

(** The choice of [ind] in [kmpp], from [D2] and the draw [r]. *)
Definition kmpp_select (D2 : list float) (r : float) : M nat :=
  let probs := map (λ v, Fdiv v (Fsum D2)) D2 in
  let cumprobs := cumsum probs in
  first_where_ge cumprobs r.

Definition kmpp_iter (X centers : loc) (i : nat) : M unit :=
  Xrows ← get_rows X;
  D2 ← mapM (λ x, min_dist_row centers x i) Xrows;
  r ← random_uniform;
  ind ← kmpp_select D2 r;
  xi ← get_row X ind;
  set_row centers i xi.

Definition kmpp (X : loc) (k : Z) : M loc :=
  centers ← first_center X k;
  for_each (py_range 1 k) (kmpp_iter X centers);;
  mret centers.

(** One further candidate of the chain of [kmc2]. *)
Definition kmc2_step (X centers : loc) (n i : nat) (st : nat * float) (j : nat)
    : M (nat * float) :=
  let '(x, dx2) := st in
  y ← random_choice n;
  dy2 ← min_dist X centers y i;
  u ← random_uniform;
  if Fgtb (Fdiv dy2 dx2) u then mret (y, dy2) else mret (x, dx2).

Definition kmc2_iter (X centers : loc) (m : Z) (i : nat) : M unit :=
  '(n, _) ← shape X;
  x ← random_choice n;
  dx2 ← min_dist X centers x i;
  '(x, _) ← for_fold (py_range 1 m) (kmc2_step X centers n i) (x, dx2);
  xr ← get_row X x;
  set_row centers i xr.

Definition kmc2 (X : loc) (k m : Z) : M loc :=
  centers ← first_center X k;
  for_each (py_range 1 k) (kmc2_iter X centers m);;
  mret centers.

(** [q = d2/(2*np.sum(d2)) + 1/(2.0*X.shape[0])] *)
Definition proposal (d2 : list float) (n : nat) : M (list float) :=
  let a := map (λ v, Fdiv v (Fmul (Finite 2) (Fsum d2))) d2 in
  b ← py_inv_2n n;
  mret (map (λ v, Fadd v b) a).

(** One further candidate of the chain of [afkmc2]; [dist y] is the least
    squared distance of point [y] to the centers chosen so far. *)
Definition af_step (dist : nat → M float) (n : nat) (q : list float)
    (st : nat * float) (j : nat) : M (nat * float) :=
  let '(x, dx2) := st in
  y ← random_choice_p n q;
  dy2 ← dist y;
  qx ← index q x;
  qy ← index q y;
  u ← random_uniform;
  if Fgtb (Fdiv (Fmul dy2 qx) (Fmul dx2 qy)) u then mret (y, dy2) else mret (x, dx2).

Definition af_iter (dist : nat → M float) (X centers : loc) (q : list float)
    (m : Z) : M nat :=
  '(n, _) ← shape X;
  x ← random_choice_p n q;
  dx2 ← dist x;
  '(x, _) ← for_fold (py_range 1 m) (af_step dist n q) (x, dx2);
  mret x.

Definition afkmc2_iter (X centers : loc) (q : list float) (m : Z) (i : nat) : M unit :=
  x ← af_iter (λ y, min_dist X centers y i) X centers q m;
  xr ← get_row X x;
  set_row centers i xr.

Definition afkmc2 (X : loc) (k m : Z) : M loc :=
  centers ← first_center X k;
  '(n, _) ← shape X;
  d2 ← mapM (λ i, xr ← get_row X i; c ← get_row centers 0; mret (sqdist xr c))
            (seq 0 n);
  q ← proposal d2 n;
  for_each (py_range 1 k) (afkmc2_iter X centers q m);;
  mret centers.

(** The closure [distance(i, j)] of [afkmc2_mem] over [X], [centers] and
    [d_store]. *)
Definition distance (X centers d_store : loc) (i j : nat) : M float :=
  v ← get_cell d_store i j;
  (if Fis_zero v then
     xr ← get_row X i;
     c ← get_row centers j;
     set_cell d_store i j (sqdist xr c)
   else mret ());;
  get_cell d_store i j.

(** [min([distance(x, j) for j in range(i)])] *)
Definition min_distance (X centers d_store : loc) (x i : nat) : M float :=
  ds ← mapM (λ j, distance X centers d_store x j) (seq 0 i);
  py_min ds.

Definition afkmc2_mem_iter (X centers d_store : loc) (q : list float) (m : Z)
    (i : nat) : M unit :=
  x ← af_iter (λ y, min_distance X centers d_store y i) X centers q m;
  xr ← get_row X x;
  set_row centers i xr.

Definition afkmc2_mem (X : loc) (k m : Z) : M loc :=
  centers ← first_center X k;
  '(n, _) ← shape X;
  d_store ← np_empty n k;
  d2 ← mapM (λ i, distance X centers d_store i 0) (seq 0 n);
  q ← proposal d2 n;
  for_each (py_range 1 k) (afkmc2_mem_iter X centers d_store q m);;
  mret centers.

End Procedures.

(** ** Reasoning about runs *)

Section Logic.

Context {G : Type} `{RandomSource G}.

Implicit Types (s : @state G) (a c : loc) (arr : ndarray).

(** [wp m s Φ]: from [s] the computation [m] returns normally, with a value
    and a final state that satisfy [Φ]. *)
Definition wp {A : Type} (m : M A) (s : state) (Φ : A → state → Prop) : Prop :=
  ∃ x s', m s = (Ok x, s') ∧ Φ x s'.

Lemma bind_Ok {A B} (m : M A) (f : A → M B) s x s' :
  m s = (Ok x, s') → (m ≫= f) s = f x s'.
Proof. intros E. unfold mbind, M_bind. by rewrite E. Qed.

Lemma bind_Raise {A B} (m : M A) (f : A → M B) s e s' :
  m s = (Raise e, s') → (m ≫= f) s = (Raise e, s').
Proof. intros E. unfold mbind, M_bind. by rewrite E. Qed.

Lemma bind_inv_Ok {A B} (m : M A) (f : A → M B) s y s2 :
  (m ≫= f) s = (Ok y, s2) → ∃ x s1, m s = (Ok x, s1) ∧ f x s1 = (Ok y, s2).
Proof.
  unfold mbind, M_bind. destruct (m s) as [[x|e] s1]; [eauto|discriminate].
Qed.

Lemma wp_ret {A} (x : A) s Φ : Φ x s → wp (mret x) s Φ.
Proof. intros HΦ. by exists x, s. Qed.

Lemma wp_bind {A B} (m : M A) (f : A → M B) s Φ :
  wp m s (λ x s', wp (f x) s' Φ) → wp (m ≫= f) s Φ.
Proof.
  intros (x & s1 & E & y & s2 & E2 & HΦ). exists y, s2.
  split; [|done]. by rewrite (bind_Ok _ _ _ _ _ E).
Qed.

Lemma wp_mono {A} (m : M A) s (Φ Ψ : A → state → Prop) :
  wp m s Φ → (∀ x s', Φ x s' → Ψ x s') → wp m s Ψ.
Proof. intros (x & s' & E & HΦ) HI. exists x, s'. eauto. Qed.

Lemma wp_eq {A} (m : M A) s x s' Φ : m s = (Ok x, s') → Φ x s' → wp m s Φ.
Proof. intros. by exists x, s'. Qed.

(** *** Loops *)

Lemma wp_mapM {A B} (I : state → Prop) (P : A → B → Prop) (f : A → M B) l s :
  I s →
  (∀ x s1, x ∈ l → I s1 → wp (f x) s1 (λ y s2, P x y ∧ I s2)) →
  wp (mapM f l) s (λ ys s', Forall2 P l ys ∧ I s').
Proof.
  revert s. induction l as [|x l IH]; intros s HI Hf.
  - apply wp_ret. by split.
  - cbn [mapM]. apply wp_bind.
    eapply wp_mono; [apply Hf; [left|done]|].
    intros y s1 [HP HI1]. apply wp_bind.
    eapply wp_mono; [apply IH; [done|]|].
    + intros x' s2 Hx'. apply Hf. by right.
    + intros ys s2 [HF HI2]. apply wp_ret. split; [by constructor|done].
Qed.



(** *** Primitives *)

Lemma get_array_eq a arr s : heap s !! a = Some arr → get_array a s = (Ok arr, s).
Proof. intros E. unfold get_array. by rewrite E. Qed.

Lemma shape_eq a arr s :
  heap s !! a = Some arr → shape a s = (Ok (length (rows arr), ncols arr), s).
Proof.
  intros E. unfold shape. by rewrite (bind_Ok _ _ _ _ _ (get_array_eq _ _ _ E)).
Qed.

Lemma get_rows_eq a arr s :
  heap s !! a = Some arr → get_rows a s = (Ok (rows arr), s).
Proof.
  intros E. unfold get_rows. by rewrite (bind_Ok _ _ _ _ _ (get_array_eq _ _ _ E)).
Qed.

Lemma get_row_eq a arr i r s :
  heap s !! a = Some arr → rows arr !! i = Some r → get_row a i s = (Ok r, s).
Proof.
  intros E Er. unfold get_row.
  rewrite (bind_Ok _ _ _ _ _ (get_array_eq _ _ _ E)). by rewrite Er.
Qed.

Lemma set_row_eq a arr i v s :
  heap s !! a = Some arr → i < length (rows arr) →
  set_row a i v s =
    (Ok (), State (rng s) (<[a := NdArray (ncols arr) (<[i := v]> (rows arr))]> (heap s))
               (uninit s)).
Proof.
  intros E Hi. unfold set_row.
  rewrite (bind_Ok _ _ _ _ _ (get_array_eq _ _ _ E)).
  by rewrite decide_True.
Qed.

Lemma random_choice_wp n s Φ :
  0 < n →
  (∀ i g, i < n → Φ i (set_rng g s)) →
  wp (random_choice n) s Φ.
Proof.
  intros Hn HΦ. unfold wp, random_choice.
  rewrite decide_False by lia.
  pose proof (rand_index_lt n (rng s) Hn) as Hlt.
  destruct (rand_index n (rng s)) as [i g]. eauto.
Qed.



End Logic.

(** ** The seeding invariant

    [Xl] refers to the dataset [Xa] in the initial state [s0], and [cl] is
    the array of centers, allocated by the call.  After [i] centers the
    store is that of [s0] with, at [cl], an array of [k] rows whose first
    [i] rows are rows of the dataset. *)

Section Seeding.

Context {G : Type} `{RandomSource G}.

Variables (Xl cl : loc) (Xa : ndarray) (s0 : @state G) (k : nat).

Implicit Types (s : @state G) (cs : list (list float)).

Hypothesis HX : heap s0 !! Xl = Some Xa.
Hypothesis Hcl : heap s0 !! cl = None.

Definition seeding (i : nat) s : Prop :=
  uninit s = uninit s0 ∧
  ∃ cs, heap s = <[cl := NdArray (ncols Xa) cs]> (heap s0) ∧
        length cs = k ∧
        ∀ j, j < i → ∃ r, cs !! j = Some r ∧ r ∈ rows Xa.

Lemma Xl_ne_cl : cl ≠ Xl.
Proof using HX Hcl. intros ->. congruence. Qed.

Lemma seeding_X i s : seeding i s → heap s !! Xl = Some Xa.
Proof using HX Hcl.
  intros (_ & cs & -> & _). rewrite lookup_insert_ne; [done|apply Xl_ne_cl].
Qed.



(** The squared distances of a point to the first [i] centers, and the
    least of them. *)
Definition dists_to (xr : list float) (cs : list (list float)) (i : nat)
    : list float :=
  map (sqdist xr) (take i cs).

Definition least (ds : list float) (d : float) : Prop :=
  ∃ d0 ds', ds = d0 :: ds' ∧ d = min_of d0 ds'.

Lemma Forall2_seq_lookup {B} (g : list float → B) (cs : list (list float)) a i ys :
  Forall2 (λ j y, ∃ c, cs !! j = Some c ∧ y = g c) (seq a i) ys →
  ys = map g (take i (drop a cs)).
Proof.
  revert a ys. induction i as [|i IH]; intros a ys HF.
  - inversion HF. by rewrite take_0.
  - simpl in HF. inversion HF as [|j y l ys' (c & Ec & ->) HF']; subst.
    rewrite (IH _ _ HF').
    rewrite (drop_S _ _ _ Ec). simpl. done.
Qed.

Lemma mapM_rows_wp {B} (g : list float → B) i cs s :
  heap s !! cl = Some (NdArray (ncols Xa) cs) → i ≤ length cs →
  wp (mapM (λ j, c ← get_row cl j; mret (g c)) (seq 0 i)) s
     (λ ys s', s' = s ∧ ys = map g (take i cs)).
Proof.
  intros Hc Hi.
  eapply wp_mono.
  { apply (wp_mapM (λ s', s' = s) (λ j y, ∃ c, cs !! j = Some c ∧ y = g c)); [done|].
    intros j s1 Hj ->. apply elem_of_seq in Hj.
    destruct (lookup_lt_is_Some_2 cs j) as [c Ec]; [lia|].
    apply wp_bind. eapply wp_eq; [by eapply get_row_eq|].
    apply wp_ret. eauto. }
  intros ys s' [HF ->]. split; [done|].
  apply Forall2_seq_lookup in HF. by rewrite drop_0 in HF.
Qed.

Lemma py_min_wp ds s Φ :
  ds ≠ [] → (∀ d, least ds d → Φ d s) → wp (py_min ds) s Φ.
Proof.
  intros Hne HΦ. destruct ds as [|d0 ds]; [done|].
  apply wp_ret. apply HΦ. by exists d0, ds.
Qed.

Lemma seeding_centers i s :
  seeding i s → ∃ cs, heap s !! cl = Some (NdArray (ncols Xa) cs) ∧
    length cs = k ∧ ∀ j, j < i → ∃ r, cs !! j = Some r ∧ r ∈ rows Xa.
Proof.
  intros (_ & cs & Hh & Hlen & Hrows). exists cs.
  split; [rewrite Hh; apply lookup_insert_eq|done].
Qed.

Lemma dists_to_nonempty xr cs i : 0 < i → i ≤ length cs → dists_to xr cs i ≠ [].
Proof.
  intros H0 Hi E. apply (f_equal length) in E.
  unfold dists_to in E. rewrite length_map, length_take in E. simpl in E. lia.
Qed.

Lemma min_dist_row_wp i cs x s Φ :
  heap s !! cl = Some (NdArray (ncols Xa) cs) → 0 < i → i ≤ length cs →
  (∀ d, least (dists_to x cs i) d → Φ d s) →
  wp (min_dist_row cl x i) s Φ.
Proof.
  intros Hc H0 Hi HΦ. unfold min_dist_row. apply wp_bind.
  eapply wp_mono; [by apply (mapM_rows_wp (sqdist x))|].
  intros ys s' [-> ->]. apply py_min_wp; [by apply dists_to_nonempty|done].
Qed.

Lemma min_dist_wp i cs x xr s Φ :
  heap s !! Xl = Some Xa → rows Xa !! x = Some xr →
  heap s !! cl = Some (NdArray (ncols Xa) cs) → 0 < i → i ≤ length cs →
  (∀ d, least (dists_to xr cs i) d → Φ d s) →
  wp (min_dist Xl cl x i) s Φ.
Proof.
  intros HXs Exr Hc H0 Hi HΦ. unfold min_dist. apply wp_bind.
  eapply wp_mono.
  { apply (wp_mapM (λ s', s' = s) (λ j y, ∃ c, cs !! j = Some c ∧ y = sqdist xr c));
      [done|].
    intros j s1 Hj ->. apply elem_of_seq in Hj.
    destruct (lookup_lt_is_Some_2 cs j) as [c Ec]; [lia|].
    apply wp_bind. eapply wp_eq; [by eapply get_row_eq|].
    apply wp_bind. eapply wp_eq; [by eapply get_row_eq|].
    apply wp_ret. eauto. }
  intros ys s' [HF ->].
  apply Forall2_seq_lookup in HF. rewrite drop_0 in HF. subst ys.
  apply py_min_wp; [by apply dists_to_nonempty|done].
Qed.

End Seeding.

(** ** Runs that succeed *)

Section Success.

Context {G : Type} `{RandomSource G}.

Implicit Types (s : @state G) (cs : list (list float)).

Lemma py_range_lookup_inv a b j x :
  py_range a b !! j = Some x → x = Z.to_nat a + j ∧ j < Z.to_nat (b - a).
Proof. unfold py_range. intros E. by apply lookup_seq in E. Qed.

Lemma py_range_length a b : length (py_range a b) = Z.to_nat (b - a).
Proof. unfold py_range. apply length_seq. Qed.

Lemma first_center_wp Xl Xa s0 kz :
  heap s0 !! Xl = Some Xa → rows Xa ≠ [] → (1 ≤ kz)%Z →
  wp (first_center Xl kz) s0 (λ c s,
    c = fresh (dom (heap s0)) ∧ seeding c Xa s0 (Z.to_nat kz) 1 s).
Proof.
  intros HX Hne Hk. unfold first_center.
  apply wp_bind. eapply wp_eq; [by apply shape_eq|]. cbn beta iota.
  set (c := fresh (dom (heap s0))).
  assert (Hc : heap s0 !! c = None).
  { apply not_elem_of_dom. apply is_fresh. }
  assert (Hne' : c ≠ Xl) by (intros ->; congruence).
  apply wp_bind. unfold np_zeros.
  destruct (Z.ltb_spec kz 0) as [?|_]; [lia|].
  eapply wp_eq; [reflexivity|]. fold c.
  set (zs := replicate (Z.to_nat kz) (replicate (ncols Xa) (Finite 0))).
  set (s1 := State _ _ _).
  assert (HX1 : heap s1 !! Xl = Some Xa) by (simpl; by rewrite lookup_insert_ne).
  apply wp_bind. eapply wp_eq; [by apply shape_eq|]. cbn beta iota.
  apply wp_bind. apply random_choice_wp.
  { destruct (rows Xa); simpl; [done|lia]. }
  intros i0 g Hi0.
  destruct (lookup_lt_is_Some_2 _ _ Hi0) as [x0 Ex0].
  apply wp_bind. eapply wp_eq; [by eapply get_row_eq|].
  apply wp_bind. eapply wp_eq.
  { eapply set_row_eq; [simpl; apply lookup_insert_eq|].
    simpl. unfold zs. rewrite length_replicate. lia. }
  apply wp_ret. split; [done|]. split; [done|]. simpl.
  exists (<[0 := x0]> zs). split; [by rewrite insert_insert_eq|]. split.
  - unfold zs. by rewrite length_insert, length_replicate.
  - intros j Hj. assert (j = 0) as -> by lia. exists x0. split.
    + apply list_lookup_insert_eq. unfold zs. rewrite length_replicate. lia.
    + by eapply list_elem_of_lookup_2.
Qed.


Lemma fresh_loc_None (s : @state G) : heap s !! fresh (dom (heap s)) = None.
Proof. apply not_elem_of_dom, is_fresh. Qed.



End Success.

(** ** Arithmetic of finite values *)

Definition is_finite (x : float) : Prop :=
  match x with Finite _ => True | _ => False end.

Definition nonneg (x : float) : Prop := ∃ v, x = Finite v ∧ (0 <= v)%Q.

Definition positive (x : float) : Prop := ∃ v, x = Finite v ∧ (0 < v)%Q.

(** Equality of floats as NumPy's [==] decides it. *)
Definition Feqb (x y : float) : bool :=
  match x, y with
  | Finite a, Finite b => Qeq_bool a b
  | PInf, PInf | NInf, NInf => true
  | _, _ => false
  end.

(** Two points with the same coordinates. *)
Fixpoint same_point (x y : list float) : bool :=
  match x, y with
  | [], [] => true
  | a :: x', b :: y' => Feqb a b && same_point x' y'
  | _, _ => false
  end.




(** A dataset of finite numbers in which every row has [ncols] entries. *)
Definition valid_dataset (arr : ndarray) : Prop :=
  Forall (λ r, length r = ncols arr ∧ Forall is_finite r) (rows arr).

Section Arith.

Local Open Scope Q_scope.

Lemma Fsum_cons x l : Fsum (x :: l) = Fadd x (Fsum l).
Proof. done. Qed.

Lemma Fadd_nonneg x y : nonneg x → nonneg y → nonneg (Fadd x y).
Proof.
  intros (a & -> & Ha) (b & -> & Hb). exists (a + b). split; [done|lra].
Qed.

Lemma Fadd_pos_l x y : positive x → nonneg y → positive (Fadd x y).
Proof.
  intros (a & -> & Ha) (b & -> & Hb). exists (a + b). split; [done|lra].
Qed.

Lemma Fadd_pos_r x y : nonneg x → positive y → positive (Fadd x y).
Proof.
  intros (a & -> & Ha) (b & -> & Hb). exists (a + b). split; [done|lra].
Qed.



Lemma Qsq_nonneg (x : Q) : 0 <= x * x.
Proof.
  destruct (Qlt_le_dec x 0).
  - assert (E : x * x == (- x) * (- x)) by ring. rewrite E.
    apply Qmult_le_0_compat; lra.
  - apply Qmult_le_0_compat; lra.
Qed.

Lemma Qsq_pos (x : Q) : ¬ x == 0 → 0 < x * x.
Proof.
  intros Hne. destruct (Q_dec x 0) as [[Hlt|Hgt]|E]; [| |done].
  - assert (E : x * x == (- x) * (- x)) by ring. rewrite E.
    apply Qmult_lt_0_compat; lra.
  - apply Qmult_lt_0_compat; lra.
Qed.

Lemma sq_diff_nonneg a b : is_finite a → is_finite b →
  nonneg (Fmul (Fsub a b) (Fsub a b)).
Proof.
  destruct a as [a| | |], b as [b| | |]; try done. intros _ _.
  eexists. split; [reflexivity|]. apply Qsq_nonneg.
Qed.

Lemma sq_diff_pos a b : is_finite a → is_finite b → Feqb a b = false →
  positive (Fmul (Fsub a b) (Fsub a b)).
Proof.
  destruct a as [a| | |], b as [b| | |]; try done. intros _ _ Hne.
  apply Qeq_bool_neq in Hne.
  eexists. split; [reflexivity|]. apply Qsq_pos.
  intros E. apply Hne. lra.
Qed.

Lemma sqdist_nonneg x c :
  Forall is_finite x → Forall is_finite c → nonneg (sqdist x c).
Proof.
  intros Hx. revert c. unfold sqdist.
  induction Hx as [|a x Ha _ IH]; intros c Hc.
  - exists 0. split; [done|lra].
  - destruct Hc as [|b c Hb Hc]; [exists 0; split; [done|lra]|].
    cbn [zip_with]. rewrite Fsum_cons.
    apply Fadd_nonneg; [by apply sq_diff_nonneg|by apply IH].
Qed.

Lemma sqdist_positive x c :
  Forall is_finite x → Forall is_finite c → length x = length c →
  same_point x c = false → positive (sqdist x c).
Proof.
  intros Hx. revert c. unfold sqdist.
  induction Hx as [|a x Ha Hx IH]; intros c Hc Hlen Hne.
  - destruct c; [done|discriminate].
  - destruct Hc as [|b c Hb Hc]; [discriminate|].
    cbn [zip_with]. rewrite Fsum_cons. cbn [same_point] in Hne.
    apply andb_false_iff in Hne as [Hne|Hne].
    + apply Fadd_pos_l; [by apply sq_diff_pos|by apply (sqdist_nonneg x c)].
    + apply Fadd_pos_r; [by apply sq_diff_nonneg|].
      apply IH; [done|simpl in Hlen; lia|done].
Qed.

Lemma min_of_elem d ds : min_of d ds ∈ d :: ds.
Proof.
  unfold min_of. revert d. induction ds as [|y ds IH]; intros d; simpl.
  - left.
  - destruct (Fltb y d).
    + right. apply IH.
    + specialize (IH d). apply elem_of_cons in IH as [E|Hin].
      * rewrite E. left.
      * right. by right.
Qed.

Lemma least_elem ds d : least ds d → d ∈ ds.
Proof. intros (d0 & ds' & -> & ->). apply min_of_elem. Qed.

(** *** Points that coincide *)



Lemma filter_length_lt {A} (P : A → bool) (l : list A) x :
  x ∈ l → P x = false → (length (List.filter P l) < length l)%nat.
Proof.
  induction l as [|y l IH]; intros Hin HP; [by apply elem_of_nil in Hin|].
  simpl. apply elem_of_cons in Hin as [<-|Hin].
  - rewrite HP. pose proof (List.filter_length_le P l). lia.
  - specialize (IH Hin HP). destruct (P y); simpl; lia.
Qed.





End Arith.

(** ** Normalised distances *)

Definition Qsum (l : list Q) : Q := foldr Qplus 0%Q l.

Section Normalise.

Local Open Scope Q_scope.

Lemma nonneg_list l :
  Forall nonneg l → ∃ vs, l = map Finite vs ∧ Forall (λ v, 0 <= v) vs.
Proof.
  induction 1 as [|x l (v & -> & Hv) _ (vs & -> & Hvs)].
  - by exists [].
  - exists (v :: vs). split; [done|by constructor].
Qed.

Lemma Fsum_Finite vs : Fsum (map Finite vs) = Finite (Qsum vs).
Proof.
  induction vs as [|v vs IH]; [done|].
  cbn [map]. rewrite Fsum_cons, IH. done.
Qed.



Lemma cumsum_from_length acc l : length (cumsum_from acc l) = length l.
Proof. revert acc. induction l as [|x l IH]; intros acc; simpl; [done|]. by rewrite IH. Qed.

Lemma cumsum_length l : length (cumsum l) = length l.
Proof. destruct l; simpl; [done|]. by rewrite cumsum_from_length. Qed.

Lemma cumsum_from_total a ps :
  ps ≠ [] →
  ∃ t, Finite t ∈ cumsum_from (Finite a) (map Finite ps) ∧ t == a + Qsum ps.
Proof.
  revert a. induction ps as [|p ps IH]; intros a Hne; [done|].
  destruct ps as [|p' ps].
  - exists (a + p). split; [left|]. simpl. lra.
  - destruct (IH (a + p)) as (t & Ht & Et); [done|].
    exists t. split; [by right|]. rewrite Et. simpl. lra.
Qed.

Lemma cumsum_total ps :
  ps ≠ [] → ∃ t, Finite t ∈ cumsum (map Finite ps) ∧ t == Qsum ps.
Proof.
  destruct ps as [|p ps]; [done|]. intros _.
  destruct ps as [|p' ps].
  - exists p. split; [left|]. simpl. lra.
  - destruct (cumsum_from_total p (p' :: ps)) as (t & Ht & Et); [done|].
    exists t. split; [by right|]. rewrite Et. simpl. lra.
Qed.




End Normalise.

Section SuccessArith.

Context {G : Type} `{RandomSource G}.

Implicit Types (s : @state G) (cs : list (list float)).

Local Open Scope Q_scope.



End SuccessArith.

Section SuccessDistinct.

Context {G : Type} `{RandomSource G}.

Implicit Types (s : @state G) (cs : list (list float)).

Variables (Xl c : loc) (Xa : ndarray) (s0 : @state G) (k : nat).

Hypothesis HX : heap s0 !! Xl = Some Xa.
Hypothesis Hc : heap s0 !! c = None.
Hypothesis Hvalid : valid_dataset Xa.

Lemma valid_row x : x ∈ rows Xa → length x = ncols Xa ∧ Forall is_finite x.
Proof using Hvalid.
  intros Hx. unfold valid_dataset in Hvalid. rewrite Forall_forall in Hvalid. eauto.
Qed.

Lemma chosen_rows i cs :
  (∀ j, j < i → ∃ r, cs !! j = Some r ∧ r ∈ rows Xa) →
  Forall (λ r, r ∈ rows Xa) (take i cs).
Proof.
  intros Hrows. apply Forall_forall. intros r Hr.
  apply list_elem_of_lookup in Hr as (j & Ej).
  apply lookup_take_Some in Ej as [Ej Hj].
  destruct (Hrows j Hj) as (r' & Er' & Hr'). congruence.
Qed.

Lemma dists_nonneg x i cs d :
  x ∈ rows Xa → Forall (λ r, r ∈ rows Xa) (take i cs) →
  least (dists_to x cs i) d → nonneg d.
Proof using Hvalid.
  intros Hx Hcs Hd. apply least_elem in Hd.
  apply list_elem_of_fmap in Hd as (r & -> & Hr).
  rewrite Forall_forall in Hcs.
  apply sqdist_nonneg; [by apply valid_row|by apply valid_row, Hcs].
Qed.

Lemma dists_positive x i cs d :
  x ∈ rows Xa → Forall (λ r, r ∈ rows Xa) (take i cs) →
  Forall (λ r, same_point x r = false) (take i cs) →
  least (dists_to x cs i) d → positive d.
Proof using Hvalid.
  intros Hx Hcs Hne Hd. apply least_elem in Hd.
  apply list_elem_of_fmap in Hd as (r & -> & Hr).
  rewrite Forall_forall in Hcs. rewrite Forall_forall in Hne.
  destruct (valid_row x Hx) as [Hlx Hfx].
  destruct (valid_row r (Hcs r Hr)) as [Hlr Hfr].
  apply sqdist_positive; [done|done|congruence|by apply Hne].
Qed.




(** The distances to the first center, from which [afkmc2] builds [q]. *)
Lemma first_dists_wp s :
  seeding c Xa s0 k 1 s →
  wp (mapM (λ i, xr ← get_row Xl i; c0 ← get_row c 0; mret (sqdist xr c0))
           (seq 0 (length (rows Xa)))) s
     (λ d2 s', s' = s ∧ ∃ c0, c0 ∈ rows Xa ∧
        (∃ cs, heap s !! c = Some (NdArray (ncols Xa) cs) ∧ cs !! 0 = Some c0) ∧
        d2 = map (λ xr, sqdist xr c0) (rows Xa)).
Proof using HX Hc.
  intros Hs.
  destruct (seeding_centers _ _ _ _ _ _ Hs) as (cs & Ecs & Hlen & Hrows).
  destruct (Hrows 0) as (c0 & Ec0 & Hc0); [lia|].
  eapply wp_mono.
  { apply (wp_mapM (λ s', s' = s)
             (λ j y, ∃ xr, rows Xa !! j = Some xr ∧ y = sqdist xr c0)); [done|].
    intros j s1 Hj ->. apply elem_of_seq in Hj.
    destruct (lookup_lt_is_Some_2 (rows Xa) j) as [xr Exr]; [lia|].
    apply wp_bind. eapply wp_eq; [eapply get_row_eq; [by eapply seeding_X|done]|].
    apply wp_bind. eapply wp_eq; [by eapply get_row_eq|].
    apply wp_ret. eauto. }
  intros d2 s' [HF ->]. split; [done|]. exists c0. split; [done|].
  split; [by exists cs|].
  apply (Forall2_seq_lookup (λ xr, sqdist xr c0)) in HF.
  by rewrite drop_0, firstn_all in HF.
Qed.



End SuccessDistinct.

Section SuccessWhole.

Context {G : Type} `{RandomSource G}.

Implicit Types (s : @state G) (cs : list (list float)).





End SuccessWhole.

(** ** The memo table of [afkmc2_mem]

    [memo_ok Xl cl ds i s]: in [s] the table [ds] has one row per point and
    one column per center, and each of its cells is zero or holds the
    squared distance between its point and its center, one of the first
    [i].  [memo_rel] relates a state of [afkmc2] to the state of
    [afkmc2_mem] that differs from it by the table only. *)

Section Memo.

Context {G : Type} `{RandomSource G}.

Implicit Types (s : @state G) (cs : list (list float)).

Definition zeroed s : Prop := ∀ i j, Fis_zero (uninit s i j) = true.

Definition memo_ok (Xl cl ds : loc) (i : nat) s : Prop :=
  Xl ≠ ds ∧ cl ≠ ds ∧ Xl ≠ cl ∧
  ∃ Xa ca D,
    heap s !! Xl = Some Xa ∧ heap s !! cl = Some ca ∧ heap s !! ds = Some D ∧
    length (rows D) = length (rows Xa) ∧
    Forall (λ r, length r = length (rows ca)) (rows D) ∧
    ∀ a b r v, rows D !! a = Some r → r !! b = Some v →
      Fis_zero v = true ∨
      (b < i ∧ ∃ xr c, rows Xa !! a = Some xr ∧ rows ca !! b = Some c ∧
                       v = sqdist xr c).

Definition memo_rel (Xl cl ds : loc) (i : nat) s1 s2 : Prop :=
  rng s1 = rng s2 ∧ uninit s1 = uninit s2 ∧
  heap s1 = delete ds (heap s2) ∧ memo_ok Xl cl ds i s2.

(** [sim R R' m1 m2]: from related states, [m1] and [m2] return the same
    value in related states, or raise the same exception. *)
Definition sim {A : Type} (R R' : @state G → @state G → Prop) (m1 m2 : M A) : Prop :=
  ∀ s1 s2, R s1 s2 →
    match m1 s1, m2 s2 with
    | (Ok x1, s1'), (Ok x2, s2') => x1 = x2 ∧ R' s1' s2'
    | (Raise e1, _), (Raise e2, _) => e1 = e2
    | _, _ => False
    end.

Lemma sim_ret {A} R (x : A) : sim R R (mret x) (mret x).
Proof. intros s1 s2 HR. by split. Qed.

Lemma sim_raise {A} R R' e : sim R R' (raise (A:=A) e) (raise e).
Proof. intros s1 s2 HR. done. Qed.

Lemma sim_bind {A B} R R' R'' (m1 m2 : M A) (f1 f2 : A → M B) :
  sim R R' m1 m2 → (∀ x, sim R' R'' (f1 x) (f2 x)) →
  sim R R'' (m1 ≫= f1) (m2 ≫= f2).
Proof.
  intros Hm Hf s1 s2 HR. specialize (Hm s1 s2 HR).
  unfold mbind, M_bind.
  destruct (m1 s1) as [[x1|e1] s1'], (m2 s2) as [[x2|e2] s2']; try done.
  destruct Hm as [-> HR']. by apply Hf.
Qed.

Lemma sim_mapM {A B} R (f1 f2 : A → M B) l :
  (∀ x, x ∈ l → sim R R (f1 x) (f2 x)) → sim R R (mapM f1 l) (mapM f2 l).
Proof.
  induction l as [|x l IH]; intros Hf; [apply sim_ret|].
  cbn [mapM]. apply (sim_bind R R R); [apply Hf; left|].
  intros y. apply (sim_bind R R R); [apply IH; intros; apply Hf; by right|].
  intros ys. apply sim_ret.
Qed.

Lemma sim_for_fold {A T} R (b1 b2 : T → A → M T) l st :
  (∀ st' x, sim R R (b1 st' x) (b2 st' x)) →
  sim R R (for_fold l b1 st) (for_fold l b2 st).
Proof.
  intros Hb. revert st. induction l as [|x l IH]; intros st; [apply sim_ret|].
  cbn [for_fold]. apply (sim_bind R R R); [apply Hb|]. intros st'. apply IH.
Qed.

Lemma sim_for_each {A} (R : nat → @state G → @state G → Prop) (b1 b2 : A → M unit) l :
  (∀ j x, l !! j = Some x → sim (R j) (R (S j)) (b1 x) (b2 x)) →
  sim (R 0) (R (length l)) (for_each l b1) (for_each l b2).
Proof.
  revert R. induction l as [|x l IH]; intros R Hb; [apply sim_ret|].
  cbn [for_each]. apply (sim_bind (R 0) (R 1)); [by apply (Hb 0)|].
  intros []. apply (IH (λ j, R (S j))). intros j y Hj. by apply (Hb (S j)).
Qed.

Lemma get_row_None a arr i s :
  heap s !! a = Some arr → rows arr !! i = None →
  get_row a i s = (Raise IndexError, s).
Proof.
  intros E Er. unfold get_row.
  rewrite (bind_Ok _ _ _ _ _ (get_array_eq _ _ _ E)). by rewrite Er.
Qed.

Lemma get_cell_eq a arr i j r v s :
  heap s !! a = Some arr → rows arr !! i = Some r → r !! j = Some v →
  get_cell a i j s = (Ok v, s).
Proof.
  intros E Er Ev. unfold get_cell.
  rewrite (bind_Ok _ _ _ _ _ (get_row_eq _ _ _ _ _ E Er)). by rewrite Ev.
Qed.

Lemma get_cell_None_row a arr i j s :
  heap s !! a = Some arr → rows arr !! i = None →
  get_cell a i j s = (Raise IndexError, s).
Proof.
  intros E Er. unfold get_cell.
  by rewrite (bind_Raise _ _ _ _ _ (get_row_None _ _ _ _ E Er)).
Qed.

Lemma get_cell_None_col a arr i j r s :
  heap s !! a = Some arr → rows arr !! i = Some r → r !! j = None →
  get_cell a i j s = (Raise IndexError, s).
Proof.
  intros E Er Ev. unfold get_cell.
  rewrite (bind_Ok _ _ _ _ _ (get_row_eq _ _ _ _ _ E Er)). by rewrite Ev.
Qed.

Lemma set_cell_eq a arr i j r v s :
  heap s !! a = Some arr → rows arr !! i = Some r → j < length r →
  set_cell a i j v s =
    (Ok (), State (rng s)
              (<[a := NdArray (ncols arr) (<[i := <[j := v]> r]> (rows arr))]> (heap s))
              (uninit s)).
Proof.
  intros E Er Hj. unfold set_cell.
  rewrite (bind_Ok _ _ _ _ _ (get_row_eq _ _ _ _ _ E Er)).
  rewrite decide_True by done.
  apply set_row_eq; [done|]. by eapply lookup_lt_Some.
Qed.

Section Rel.

Variables (Xl cl ds : loc).

Local Abbreviation R := (memo_rel Xl cl ds).

Lemma memo_rel_lookup i s1 s2 a : R i s1 s2 → a ≠ ds → heap s1 !! a = heap s2 !! a.
Proof. intros (_ & _ & -> & _) Ha. by apply lookup_delete_ne. Qed.

Lemma memo_rel_set_rng i s1 s2 g :
  R i s1 s2 → R i (set_rng g s1) (set_rng g s2).
Proof. intros (_ & Hu & Hh & Hm). done. Qed.

Lemma sim_get_array i a : a ≠ ds → sim (R i) (R i) (get_array a) (get_array a).
Proof.
  intros Ha s1 s2 HR. unfold get_array.
  rewrite (memo_rel_lookup _ _ _ _ HR Ha). by destruct (heap s2 !! a).
Qed.

Lemma sim_get_row i a j : a ≠ ds → sim (R i) (R i) (get_row a j) (get_row a j).
Proof.
  intros Ha. unfold get_row. apply (sim_bind _ (R i)); [by apply sim_get_array|].
  intros arr. destruct (rows arr !! j); [apply sim_ret|apply sim_raise].
Qed.

Lemma sim_shape i a : a ≠ ds → sim (R i) (R i) (shape a) (shape a).
Proof.
  intros Ha. unfold shape. apply (sim_bind _ (R i)); [by apply sim_get_array|].
  intros arr. apply sim_ret.
Qed.

Lemma sim_random_uniform i : sim (R i) (R i) random_uniform random_uniform.
Proof.
  intros s1 s2 HR. unfold random_uniform.
  destruct HR as (Hg & HR). rewrite Hg.
  destruct (rand_uniform (rng s2)) as [x g]. split; [done|].
  apply memo_rel_set_rng. by split.
Qed.

Lemma sim_random_choice_p i n q :
  sim (R i) (R i) (random_choice_p n q) (random_choice_p n q).
Proof.
  intros s1 s2 HR. unfold random_choice_p.
  destruct (decide (n = 0)); [done|]. destruct (decide (length q = n)); [|done].
  destruct HR as (Hg & HR). rewrite Hg.
  destruct (rand_weighted q (rng s2)) as [[x|] g]; [|done]. split; [done|].
  apply memo_rel_set_rng. by split.
Qed.

(** [centers[i] = v] adds center [i]: the cells of column [i] are still
    zero. *)
Lemma sim_set_row i v : sim (R i) (R (S i)) (set_row cl i v) (set_row cl i v).
Proof.
  intros s1 s2 HR. pose proof HR as (Hg & Hu & Hh & Hm).
  destruct Hm as (HXd & Hcd & HXc & Xa & ca & D & EX & Ec & ED & HlenD & Hcols & Hcells).
  assert (Ec1 : heap s1 !! cl = Some ca).
  { by rewrite (memo_rel_lookup _ _ _ _ HR Hcd). }
  unfold set_row.
  rewrite (bind_Ok _ _ _ _ _ (get_array_eq _ _ _ Ec1)).
  rewrite (bind_Ok _ _ _ _ _ (get_array_eq _ _ _ Ec)).
  destruct (decide (i < length (rows ca))) as [Hi|Hi]; [|done].
  split; [done|]. unfold put_array. split; [done|]. split; [done|]. simpl.
  split; [rewrite Hh; by rewrite delete_insert_ne|].
  split; [done|]. split; [done|]. split; [done|].
  exists Xa, (NdArray (ncols ca) (<[i := v]> (rows ca))), D. cbn [heap rows].
  split; [by rewrite lookup_insert_ne|]. split; [apply lookup_insert_eq|].
  split; [by rewrite lookup_insert_ne|]. split; [done|].
  split; [simpl; by rewrite length_insert|].
  intros a b r w Er Ew. destruct (Hcells a b r w Er Ew) as [Hz|(Hb & xr & c & Exr & Ecb & ->)].
  - by left.
  - right. split; [lia|]. exists xr, c. split; [done|]. split; [|done].
    simpl. rewrite list_lookup_insert_ne; [done|lia].
Qed.

(** A memoised distance is the distance. *)
Lemma sim_distance i x j :
  j < i →
  sim (R i) (R i)
      (xr ← get_row Xl x; c ← get_row cl j; mret (sqdist xr c))
      (distance Xl cl ds x j).
Proof.
  intros Hj s1 s2 HR. pose proof HR as (Hg & Hu & Hh & Hm).
  destruct Hm as (HXd & Hcd & HXc & Xa & ca & D & EX & Ec & ED & HlenD & Hcols & Hcells).
  assert (EX1 : heap s1 !! Xl = Some Xa) by (by rewrite (memo_rel_lookup _ _ _ _ HR HXd)).
  assert (Ec1 : heap s1 !! cl = Some ca) by (by rewrite (memo_rel_lookup _ _ _ _ HR Hcd)).
  destruct (rows Xa !! x) as [xr|] eqn:Exr; cycle 1.
  { rewrite (bind_Raise _ _ _ _ _ (get_row_None _ _ _ _ EX1 Exr)).
    unfold distance.
    rewrite (bind_Raise _ _ s2 IndexError s2); [done|].
    apply (get_cell_None_row _ D); [done|].
    apply lookup_ge_None. apply lookup_ge_None in Exr. lia. }
  destruct (lookup_lt_is_Some_2 (rows D) x) as [r Er].
  { rewrite HlenD. by eapply lookup_lt_Some. }
  assert (Hlr : length r = length (rows ca)).
  { rewrite Forall_forall in Hcols. apply Hcols. by eapply list_elem_of_lookup_2. }
  rewrite (bind_Ok _ _ _ _ _ (get_row_eq _ _ _ _ _ EX1 Exr)).
  destruct (rows ca !! j) as [c|] eqn:Ecj; cycle 1.
  { rewrite (bind_Raise _ _ _ _ _ (get_row_None _ _ _ _ Ec1 Ecj)).
    unfold distance.
    rewrite (bind_Raise _ _ s2 IndexError s2); [done|].
    apply (get_cell_None_col _ D _ _ r); [done..|].
    apply lookup_ge_None. apply lookup_ge_None in Ecj. lia. }
  destruct (lookup_lt_is_Some_2 r j) as [v Ev].
  { rewrite Hlr. by eapply lookup_lt_Some. }
  rewrite (bind_Ok _ _ _ _ _ (get_row_eq _ _ _ _ _ Ec1 Ecj)).
  unfold distance.
  rewrite (bind_Ok _ _ _ _ _ (get_cell_eq _ _ _ _ _ _ _ ED Er Ev)).
  destruct (Fis_zero v) eqn:Ez.
  - (* the cell is zero: the distance is computed and stored *)
    set (D' := NdArray (ncols D) (<[x := <[j := sqdist xr c]> r]> (rows D))).
    set (s2' := State (rng s2) (<[ds := D']> (heap s2)) (uninit s2)).
    assert (Eset : (xr ← get_row Xl x; c ← get_row cl j;
                    set_cell ds x j (sqdist xr c)) s2 = (Ok (), s2')).
    { rewrite (bind_Ok _ _ _ _ _ (get_row_eq _ _ _ _ _ EX Exr)).
      rewrite (bind_Ok _ _ _ _ _ (get_row_eq _ _ _ _ _ Ec Ecj)).
      apply (set_cell_eq _ D _ _ r); [done..|]. by eapply lookup_lt_Some. }
    rewrite (bind_Ok _ _ _ _ _ Eset).
    assert (Eget : get_cell ds x j s2' = (Ok (sqdist xr c), s2')).
    { apply (get_cell_eq _ D' _ _ (<[j := sqdist xr c]> r)).
      - apply lookup_insert_eq.
      - apply list_lookup_insert_eq. by eapply lookup_lt_Some.
      - apply list_lookup_insert_eq. by eapply lookup_lt_Some. }
    rewrite Eget. cbn. unfold s2'.
    split; [done|]. split; [done|]. split; [done|]. cbn [heap].
    split; [rewrite Hh; by rewrite delete_insert_eq|].
    split; [done|]. split; [done|]. split; [done|].
    exists Xa, ca, D'. cbn [heap rows].
    split; [by rewrite lookup_insert_ne|]. split; [by rewrite lookup_insert_ne|].
    split; [apply lookup_insert_eq|]. split; [simpl; by rewrite length_insert|].
    split.
    { simpl. apply Forall_insert; [done|]. by rewrite length_insert. }
    simpl. intros a b r' w Er' Ew.
    destruct (decide (a = x)) as [->|Hax].
    + rewrite list_lookup_insert_eq in Er' by (by eapply lookup_lt_Some).
      injection Er' as <-.
      destruct (decide (b = j)) as [->|Hbj].
      * rewrite list_lookup_insert_eq in Ew by (by eapply lookup_lt_Some).
        injection Ew as <-. right. split; [done|]. by exists xr, c.
      * rewrite list_lookup_insert_ne in Ew by done. by eapply Hcells.
    + rewrite list_lookup_insert_ne in Er' by done. by eapply Hcells.
  - (* the cell is set: it holds the distance *)
    rewrite (bind_Ok _ _ s2 () s2) by done.
    rewrite (get_cell_eq _ _ _ _ _ _ _ ED Er Ev). cbn.
    destruct (Hcells x j r v Er Ev) as [Hz|(_ & xr' & c' & Exr' & Ecj' & ->)];
      [congruence|].
    split; [congruence|done].
Qed.

Hypothesis HXd : Xl ≠ ds.
Hypothesis Hcd : cl ≠ ds.

Lemma sim_py_min i l : sim (R i) (R i) (py_min l) (py_min l).
Proof. destruct l; [apply sim_raise|apply sim_ret]. Qed.

Lemma sim_index i q x : sim (R i) (R i) (index q x) (index q x).
Proof. unfold index. destruct (q !! x); [apply sim_ret|apply sim_raise]. Qed.

Lemma sim_min_dist i x :
  sim (R i) (R i) (min_dist Xl cl x i) (min_distance Xl cl ds x i).
Proof.
  unfold min_dist, min_distance. apply (sim_bind _ (R i)).
  - apply sim_mapM. intros j Hj. apply elem_of_seq in Hj.
    apply sim_distance. lia.
  - intros l. apply sim_py_min.
Qed.

Lemma sim_af_step i (dist1 dist2 : nat → M float) n q st j :
  (∀ y, sim (R i) (R i) (dist1 y) (dist2 y)) →
  sim (R i) (R i) (af_step dist1 n q st j) (af_step dist2 n q st j).
Proof.
  intros Hdist. unfold af_step. destruct st as [x dx2].
  apply (sim_bind _ (R i)); [apply sim_random_choice_p|]. intros y.
  apply (sim_bind _ (R i)); [apply Hdist|]. intros dy2.
  apply (sim_bind _ (R i)); [apply sim_index|]. intros qx.
  apply (sim_bind _ (R i)); [apply sim_index|]. intros qy.
  apply (sim_bind _ (R i)); [apply sim_random_uniform|]. intros u.
  destruct (Fgtb _ _); apply sim_ret.
Qed.

Lemma sim_af_iter i (dist1 dist2 : nat → M float) q m :
  (∀ y, sim (R i) (R i) (dist1 y) (dist2 y)) →
  sim (R i) (R i) (af_iter dist1 Xl cl q m) (af_iter dist2 Xl cl q m).
Proof using HXd.
  intros Hdist. unfold af_iter.
  apply (sim_bind _ (R i)); [by apply sim_shape|]. intros [n d].
  apply (sim_bind _ (R i)); [apply sim_random_choice_p|]. intros x.
  apply (sim_bind _ (R i)); [apply Hdist|]. intros dx2.
  apply (sim_bind _ (R i)).
  - apply sim_for_fold. intros st j. by apply sim_af_step.
  - intros [x' ?]. apply sim_ret.
Qed.

Lemma sim_iter i q m :
  sim (R i) (R (S i)) (afkmc2_iter Xl cl q m i) (afkmc2_mem_iter Xl cl ds q m i).
Proof using HXd Hcd.
  unfold afkmc2_iter, afkmc2_mem_iter.
  apply (sim_bind _ (R i)); [apply sim_af_iter; intros; apply sim_min_dist|].
  intros x. apply (sim_bind _ (R i)); [by apply sim_get_row|].
  intros xr. apply sim_set_row.
Qed.

Lemma sim_proposal i d2 n : sim (R i) (R i) (proposal d2 n) (proposal d2 n).
Proof.
  unfold proposal, py_inv_2n. apply (sim_bind _ (R i)).
  - destruct (decide (n = 0)); [apply sim_raise|apply sim_ret].
  - intros b. apply sim_ret.
Qed.

Lemma sim_seeding kz m n :
  sim (R 1) (R (1 + length (py_range 1 kz)))
    (d2 ← mapM (λ i, xr ← get_row Xl i; c ← get_row cl 0; mret (sqdist xr c))
               (seq 0 n);
     q ← proposal d2 n;
     for_each (py_range 1 kz) (afkmc2_iter Xl cl q m);; mret cl)
    (d2 ← mapM (λ i, distance Xl cl ds i 0) (seq 0 n);
     q ← proposal d2 n;
     for_each (py_range 1 kz) (afkmc2_mem_iter Xl cl ds q m);; mret cl).
Proof using HXd Hcd.
  apply (sim_bind _ (R 1)).
  { apply sim_mapM. intros j _. apply sim_distance. lia. }
  intros d2. apply (sim_bind _ (R 1)); [apply sim_proposal|].
  intros q. apply (sim_bind _ (R (1 + length (py_range 1 kz)))).
  - apply (sim_for_each (λ j, R (1 + j))).
    intros j x Hj. apply py_range_lookup_inv in Hj as [-> _].
    change (Z.to_nat 1) with 1. apply sim_iter.
  - intros []. apply sim_ret.
Qed.

End Rel.

End Memo.

Section Equivalence.

Context {G : Type} `{RandomSource G}.

Implicit Types (s : @state G).

(** The state after the first center, and the empty memo table next to
    it. *)
Lemma memo_start X Xa s0 k :
  zeroed s0 → heap s0 !! X = Some Xa → rows Xa ≠ [] → (1 ≤ k)%Z →
  ∃ c s1 ds s2,
    first_center X k s0 = (Ok c, s1) ∧
    seeding c Xa s0 (Z.to_nat k) 1 s1 ∧ heap s0 !! c = None ∧
    np_empty (length (rows Xa)) k s1 = (Ok ds, s2) ∧
    X ≠ ds ∧ c ≠ ds ∧ heap s0 !! ds = None ∧
    memo_rel X c ds 1 s1 s2.
Proof.
  intros Hz HX Hne Hk.
  destruct (first_center_wp X Xa s0 k HX Hne Hk) as (c & s1 & E1 & -> & Hs1).
  set (c := fresh (dom (heap s0))) in *.
  pose proof (fresh_loc_None s0) as Hc. fold c in Hc.
  pose proof (seeding_X X c Xa s0 _ HX Hc _ _ Hs1) as HX1.
  destruct (seeding_centers _ _ _ _ _ _ Hs1) as (cs & Ecs & Hlen & _).
  set (n := length (rows Xa)).
  set (ds := fresh (dom (heap s1))).
  pose proof (fresh_loc_None s1) as Hds. fold ds in Hds.
  set (D := NdArray (Z.to_nat k)
              (map (λ i, map (uninit s1 i) (seq 0 (Z.to_nat k))) (seq 0 n))).
  set (s2 := State (rng s1) (<[ds := D]> (heap s1)) (uninit s1)).
  assert (E2 : np_empty n k s1 = (Ok ds, s2)).
  { unfold np_empty. destruct (Z.ltb_spec k 0) as [?|_]; [lia|]. done. }
  assert (HXd : X ≠ ds) by (intros ->; congruence).
  assert (Hcd : c ≠ ds) by (intros E; rewrite E in Ecs; congruence).
  assert (HXc : X ≠ c) by (intros ->; congruence).
  exists c, s1, ds, s2. split; [done|]. split; [done|]. split; [done|].
  split; [done|]. split; [done|]. split; [done|]. split.
  { destruct Hs1 as (_ & cs' & Hh1 & _). rewrite Hh1 in Hds.
    apply lookup_insert_None in Hds. tauto. }
  split; [done|]. split; [done|].
  split; [unfold s2; cbn [heap]; by rewrite delete_insert_id|].
  split; [done|]. split; [done|]. split; [done|].
  exists Xa, (NdArray (ncols Xa) cs), D. unfold s2. cbn [heap rows].
  split; [by rewrite lookup_insert_ne|]. split; [by rewrite lookup_insert_ne|].
  split; [apply lookup_insert_eq|].
  split; [unfold D; simpl; by rewrite length_map, length_seq|].
  split.
  - unfold D. simpl. apply Forall_forall. intros r Hr.
    apply list_elem_of_fmap in Hr as (i & -> & _).
    by rewrite length_map, length_seq.
  - intros a b r v Er Ev. left. unfold D in Er. simpl in Er.
    apply list_lookup_fmap_Some in Er as (i & -> & _).
    apply list_lookup_fmap_Some in Ev as (j & -> & _).
    destruct Hs1 as [Hu _]. rewrite Hu. apply Hz.
Qed.

(** From a state whose uninitialised memory is zero, [afkmc2_mem] and
    [afkmc2] return the same reference and leave the same random source and
    the same store, up to the memo table [ds]; or they raise the same
    exception. *)
Lemma afkmc2_mem_zeroed Xl Xa s0 kz m :
  zeroed s0 → heap s0 !! Xl = Some Xa → rows Xa ≠ [] → (1 ≤ kz)%Z →
  match afkmc2 Xl kz m s0, afkmc2_mem Xl kz m s0 with
  | (Ok c1, s1), (Ok c2, s2) =>
      c1 = c2 ∧ rng s1 = rng s2 ∧
      ∃ ds, heap s0 !! ds = None ∧ ds ≠ c1 ∧ heap s1 = delete ds (heap s2)
  | (Raise e1, _), (Raise e2, _) => e1 = e2
  | _, _ => False
  end.
Proof.
  intros Hz HX Hne Hk. unfold afkmc2, afkmc2_mem.
  destruct (memo_start Xl Xa s0 kz Hz HX Hne Hk)
    as (c & s1 & ds & s2 & E1 & Hs1 & Hc & E2 & HXd & Hcd & Hds & HR).
  pose proof (seeding_X Xl c Xa s0 _ HX Hc _ _ Hs1) as HX1.
  rewrite !(bind_Ok _ _ _ _ _ E1).
  rewrite !(bind_Ok _ _ _ _ _ (shape_eq _ _ _ HX1)). cbn beta iota.
  rewrite (bind_Ok _ _ _ _ _ E2).
  pose proof (sim_seeding Xl c ds HXd Hcd kz m (length (rows Xa)) s1 s2 HR) as Hsim.
  lazymatch type of Hsim with
  | match ?t1 with _ => _ end => destruct t1 as [[c1|e1] s1'] eqn:Erun
  end;
  lazymatch type of Hsim with
  | match ?t2 with _ => _ end => destruct t2 as [[c2|e2] s2']
  end; try done.
  destruct Hsim as (<- & Hg & _ & Hh & _).
  apply bind_inv_Ok in Erun as (d2 & ? & _ & Erun).
  apply bind_inv_Ok in Erun as (q & ? & _ & Erun).
  apply bind_inv_Ok in Erun as ([] & ? & _ & [= <- _]).
  split; [done|]. split; [done|]. exists ds. split; [done|]. by split.
Qed.

End Equivalence.

(** ** What a run writes

    [frame W m]: whatever the outcome of [m], the arrays that exist before
    the run and are not in [W] are the same after it. *)

Section Frame.

Context {G : Type} `{RandomSource G}.

Implicit Types (s : @state G) (W : loc → Prop).

Definition unchanged W s s' : Prop :=
  ∀ l, l ∈ dom (heap s) → ¬ W l → heap s' !! l = heap s !! l.

Definition frame {A : Type} W (m : M A) : Prop := ∀ s, unchanged W s (m s).2.

(** A reference returned by [m] is to an array that [m] allocated. *)
Definition fresh_result (m : M loc) : Prop :=
  ∀ s a, (m s).1 = Ok a → a ∉ dom (heap s).

Definition nothing : loc → Prop := λ _, False.

Lemma unchanged_refl W s : unchanged W s s.
Proof. by intros l _ _. Qed.

Lemma unchanged_trans W s1 s2 s3 :
  unchanged W s1 s2 → unchanged W s2 s3 → unchanged W s1 s3.
Proof.
  intros H12 H23 l Hl HW. rewrite <- (H12 l Hl HW). apply H23; [|done].
  apply elem_of_dom. rewrite (H12 l Hl HW). by apply elem_of_dom.
Qed.

Lemma frame_pure {A} W (m : M A) : (∀ s, (m s).2 = s) → frame W m.
Proof. intros Hm s. rewrite Hm. apply unchanged_refl. Qed.

Lemma frame_rng {A} W (m : M A) :
  (∀ s, heap (m s).2 = heap s) → frame W m.
Proof. intros Hm s l _ _. by rewrite Hm. Qed.

Lemma frame_ret {A} W (x : A) : frame W (mret x).
Proof. by apply frame_pure. Qed.

Lemma frame_raise {A} W e : frame W (raise (A:=A) e).
Proof. by apply frame_pure. Qed.

Lemma frame_mono {A} W W' (m : M A) :
  (∀ l, W l → W' l) → frame W m → frame W' m.
Proof. intros HW Hm s l Hl HW'. apply Hm; [done|]. intros ?. by apply HW', HW. Qed.

Lemma frame_bind {A B} W (m : M A) (f : A → M B) :
  frame W m → (∀ x, frame W (f x)) → frame W (m ≫= f).
Proof.
  intros Hm Hf s. specialize (Hm s). unfold mbind, M_bind.
  destruct (m s) as [[x|e] s1]; [|done].
  eapply unchanged_trans; [done|apply Hf].
Qed.

Lemma frame_bind_fresh {B} W (m : M loc) (f : loc → M B) :
  fresh_result m → frame W m →
  (∀ a, frame (λ l, W l ∨ l = a) (f a)) →
  frame W (m ≫= f).
Proof.
  intros Hfr Hm Hf s. specialize (Hm s). specialize (Hfr s).
  unfold mbind, M_bind. destruct (m s) as [[a|e] s1]; [|done].
  simpl in *. intros l Hl HW. rewrite <- (Hm l Hl HW).
  apply Hf.
  - apply elem_of_dom. rewrite (Hm l Hl HW). by apply elem_of_dom.
  - intros [?| ->]; [done|]. by apply (Hfr a).
Qed.

Lemma frame_mapM {A B} W (f : A → M B) l :
  (∀ x, frame W (f x)) → frame W (mapM f l).
Proof.
  intros Hf. induction l as [|x l IH]; [apply frame_ret|].
  cbn [mapM]. apply frame_bind; [done|]. intros y.
  apply frame_bind; [done|]. intros ys. apply frame_ret.
Qed.

Lemma frame_for_each {A} W (body : A → M unit) l :
  (∀ x, frame W (body x)) → frame W (for_each l body).
Proof.
  intros Hb. induction l as [|x l IH]; [apply frame_ret|].
  cbn [for_each]. apply frame_bind; [done|]. by intros _.
Qed.

Lemma frame_for_fold {A T} W (body : T → A → M T) l st :
  (∀ st' x, frame W (body st' x)) → frame W (for_fold l body st).
Proof.
  intros Hb. revert st. induction l as [|x l IH]; intros st; [apply frame_ret|].
  cbn [for_fold]. apply frame_bind; [done|]. intros st'. apply IH.
Qed.

(** *** Primitives *)

Lemma frame_get_array W a : frame W (get_array a).
Proof. apply frame_pure. intros s. unfold get_array. by destruct (heap s !! a). Qed.

Lemma frame_put_array W a arr : W a → frame W (put_array a arr).
Proof.
  intros Ha s l Hl HW. simpl. apply lookup_insert_ne. by intros ->.
Qed.

Lemma frame_shape W a : frame W (shape a).
Proof.
  unfold shape. apply frame_bind; [apply frame_get_array|]. intros. apply frame_ret.
Qed.

Lemma frame_get_rows W a : frame W (get_rows a).
Proof.
  unfold get_rows. apply frame_bind; [apply frame_get_array|]. intros. apply frame_ret.
Qed.

Lemma frame_get_row W a i : frame W (get_row a i).
Proof.
  unfold get_row. apply frame_bind; [apply frame_get_array|]. intros arr.
  destruct (rows arr !! i); [apply frame_ret|apply frame_raise].
Qed.

Lemma frame_set_row W a i v : W a → frame W (set_row a i v).
Proof.
  intros Ha. unfold set_row. apply frame_bind; [apply frame_get_array|].
  intros arr. destruct (decide _); [by apply frame_put_array|apply frame_raise].
Qed.

Lemma frame_get_cell W a i j : frame W (get_cell a i j).
Proof.
  unfold get_cell. apply frame_bind; [apply frame_get_row|]. intros r.
  destruct (r !! j); [apply frame_ret|apply frame_raise].
Qed.

Lemma frame_set_cell W a i j v : W a → frame W (set_cell a i j v).
Proof.
  intros Ha. unfold set_cell. apply frame_bind; [apply frame_get_row|].
  intros r. destruct (decide _); [by apply frame_set_row|apply frame_raise].
Qed.

Lemma frame_index W q i : frame W (index q i).
Proof. unfold index. destruct (q !! i); [apply frame_ret|apply frame_raise]. Qed.

Lemma frame_py_min W l : frame W (py_min l).
Proof. destruct l; [apply frame_raise|apply frame_ret]. Qed.

Lemma frame_random_choice W n : frame W (random_choice n).
Proof.
  apply frame_rng. intros s. unfold random_choice.
  destruct (decide _); [done|]. by destruct (rand_index n (rng s)).
Qed.

Lemma frame_random_uniform W : frame W random_uniform.
Proof.
  apply frame_rng. intros s. unfold random_uniform.
  by destruct (rand_uniform (rng s)).
Qed.

Lemma frame_random_choice_p W n q : frame W (random_choice_p n q).
Proof.
  apply frame_rng. intros s. unfold random_choice_p.
  destruct (decide _); [done|]. destruct (decide _); [|done].
  by destruct (rand_weighted q (rng s)) as [[i|] g].
Qed.

Lemma frame_alloc W arr : frame W (alloc arr).
Proof.
  intros s l Hl _. simpl. apply lookup_insert_ne. intros <-.
  by apply (is_fresh (dom (heap s))).
Qed.

Lemma fresh_alloc arr : fresh_result (alloc arr).
Proof. intros s a [= <-]. apply is_fresh. Qed.

Lemma frame_np_zeros W k d : frame W (np_zeros k d).
Proof. unfold np_zeros. destruct (k <? 0)%Z; [apply frame_raise|apply frame_alloc]. Qed.

Lemma fresh_np_zeros k d : fresh_result (np_zeros k d).
Proof.
  unfold np_zeros. destruct (k <? 0)%Z; [by intros s a|apply fresh_alloc].
Qed.

Lemma frame_np_empty W n k : frame W (np_empty n k).
Proof.
  intros s. unfold np_empty. destruct (k <? 0)%Z; [apply frame_raise|apply frame_alloc].
Qed.

Lemma fresh_np_empty n k : fresh_result (np_empty n k).
Proof.
  intros s. unfold np_empty. destruct (k <? 0)%Z; [by intros a|apply fresh_alloc].
Qed.

(** *** The procedures *)

Lemma frame_min_dist_row W c x i : frame W (min_dist_row c x i).
Proof.
  unfold min_dist_row. apply frame_bind; [|intros; apply frame_py_min].
  apply frame_mapM. intros j. apply frame_bind; [apply frame_get_row|].
  intros. apply frame_ret.
Qed.

Lemma frame_min_dist W X c x i : frame W (min_dist X c x i).
Proof.
  unfold min_dist. apply frame_bind; [|intros; apply frame_py_min].
  apply frame_mapM. intros j. apply frame_bind; [apply frame_get_row|].
  intros. apply frame_bind; [apply frame_get_row|]. intros. apply frame_ret.
Qed.

Lemma frame_first_center X k : frame nothing (first_center X k).
Proof.
  unfold first_center. apply frame_bind; [apply frame_shape|]. intros [_ d].
  apply frame_bind_fresh; [apply fresh_np_zeros|apply frame_np_zeros|].
  intros c. apply frame_bind; [apply frame_shape|]. intros [n _].
  apply frame_bind; [apply frame_random_choice|]. intros i0.
  apply frame_bind; [apply frame_get_row|]. intros x0.
  apply frame_bind; [apply frame_set_row; by right|]. intros _. apply frame_ret.
Qed.

Lemma shape_state a s : (shape a s).2 = s.
Proof. unfold shape, mbind, M_bind, get_array. by destruct (heap s !! a). Qed.

Lemma fresh_first_center X k : fresh_result (first_center X k).
Proof.
  intros s a Ha. destruct (first_center X k s) as [r s'] eqn:E.
  simpl in Ha. subst r. unfold first_center in E.
  apply bind_inv_Ok in E as ([n d] & s1 & E1 & E).
  assert (s1 = s) as -> by (by rewrite <- (shape_state X s), E1).
  apply bind_inv_Ok in E as (c & s2 & E2 & E).
  apply bind_inv_Ok in E as ([n' d'] & s3 & _ & E).
  apply bind_inv_Ok in E as (i0 & s4 & _ & E).
  apply bind_inv_Ok in E as (x0 & s5 & _ & E).
  apply bind_inv_Ok in E as ([] & s6 & _ & [= <- _]).
  apply (fresh_np_zeros k d s). by rewrite E2.
Qed.

(** A procedure that returns the centers it allocated first. *)
Lemma fresh_seeding X k (body : loc → M unit) :
  fresh_result (centers ← first_center X k; body centers;; mret centers).
Proof.
  intros s a Ha.
  destruct ((centers ← first_center X k; body centers;; mret centers) s)
    as [r s'] eqn:E.
  simpl in Ha. subst r.
  apply bind_inv_Ok in E as (c & s1 & E1 & E).
  apply bind_inv_Ok in E as ([] & s2 & _ & [= <- _]).
  apply (fresh_first_center X k s). by rewrite E1.
Qed.

Lemma frame_seeding X k (body : loc → M unit) :
  (∀ c, frame (λ l, l = c) (body c)) →
  frame nothing (centers ← first_center X k; body centers;; mret centers).
Proof.
  intros Hbody. apply frame_bind_fresh;
    [apply fresh_first_center|apply frame_first_center|].
  intros c. apply frame_bind; [|intros; apply frame_ret].
  eapply frame_mono; [|apply Hbody]. intros l ->. by right.
Qed.

Lemma frame_kmpp_iter W X c i : W c → frame W (kmpp_iter X c i).
Proof.
  intros Hc. unfold kmpp_iter.
  apply frame_bind; [apply frame_get_rows|]. intros Xrows.
  apply frame_bind; [apply frame_mapM; intros; apply frame_min_dist_row|].
  intros D2. apply frame_bind; [apply frame_random_uniform|]. intros r.
  apply frame_bind.
  { unfold kmpp_select, first_where_ge.
    destruct (where_ge _ _ _); [apply frame_raise|apply frame_ret]. }
  intros ind. apply frame_bind; [apply frame_get_row|]. intros xi.
  by apply frame_set_row.
Qed.

Lemma frame_kmc2_iter W X c m i : W c → frame W (kmc2_iter X c m i).
Proof.
  intros Hc. unfold kmc2_iter.
  apply frame_bind; [apply frame_shape|]. intros [n d].
  apply frame_bind; [apply frame_random_choice|]. intros x.
  apply frame_bind; [apply frame_min_dist|]. intros dx2.
  apply frame_bind.
  { apply frame_for_fold. intros [x1 dx1] j. unfold kmc2_step.
    apply frame_bind; [apply frame_random_choice|]. intros y.
    apply frame_bind; [apply frame_min_dist|]. intros dy2.
    apply frame_bind; [apply frame_random_uniform|]. intros u.
    destruct (Fgtb _ _); apply frame_ret. }
  intros [x1 dx1]. apply frame_bind; [apply frame_get_row|]. intros xr.
  by apply frame_set_row.
Qed.

Lemma frame_af_iter W (dist : nat → M float) X c q m :
  (∀ y, frame W (dist y)) → frame W (af_iter dist X c q m).
Proof.
  intros Hdist. unfold af_iter.
  apply frame_bind; [apply frame_shape|]. intros [n d].
  apply frame_bind; [apply frame_random_choice_p|]. intros x.
  apply frame_bind; [apply Hdist|]. intros dx2.
  apply frame_bind; [|intros [x1 dx1]; apply frame_ret].
  apply frame_for_fold. intros [x1 dx1] j. unfold af_step.
  apply frame_bind; [apply frame_random_choice_p|]. intros y.
  apply frame_bind; [apply Hdist|]. intros dy2.
  apply frame_bind; [apply frame_index|]. intros qx.
  apply frame_bind; [apply frame_index|]. intros qy.
  apply frame_bind; [apply frame_random_uniform|]. intros u.
  destruct (Fgtb _ _); apply frame_ret.
Qed.

Lemma frame_proposal W d2 n : frame W (proposal d2 n).
Proof.
  unfold proposal, py_inv_2n. apply frame_bind; [|intros; apply frame_ret].
  destruct (decide _); [apply frame_raise|apply frame_ret].
Qed.

Lemma frame_distance W X c ds i j : W ds → frame W (distance X c ds i j).
Proof.
  intros Hds. unfold distance.
  apply frame_bind; [apply frame_get_cell|]. intros v.
  apply frame_bind; [|intros; apply frame_get_cell].
  destruct (Fis_zero v); [|apply frame_ret].
  apply frame_bind; [apply frame_get_row|]. intros xr.
  apply frame_bind; [apply frame_get_row|]. intros cr.
  by apply frame_set_cell.
Qed.

Lemma frame_kmpp X k : frame nothing (kmpp X k).
Proof.
  unfold kmpp. apply frame_seeding. intros c.
  apply frame_for_each. intros i. by apply frame_kmpp_iter.
Qed.

Lemma frame_kmc2 X k m : frame nothing (kmc2 X k m).
Proof.
  unfold kmc2. apply frame_seeding. intros c.
  apply frame_for_each. intros i. by apply frame_kmc2_iter.
Qed.

Lemma frame_afkmc2 X k m : frame nothing (afkmc2 X k m).
Proof.
  unfold afkmc2. apply frame_bind_fresh;
    [apply fresh_first_center|apply frame_first_center|].
  intros c. apply frame_bind; [apply frame_shape|]. intros [n d].
  apply frame_bind.
  { apply frame_mapM. intros i. apply frame_bind; [apply frame_get_row|].
    intros xr. apply frame_bind; [apply frame_get_row|]. intros. apply frame_ret. }
  intros d2. apply frame_bind; [apply frame_proposal|]. intros q.
  apply frame_bind; [|intros; apply frame_ret].
  apply frame_for_each. intros i. unfold afkmc2_iter.
  apply frame_bind; [apply frame_af_iter; intros; apply frame_min_dist|].
  intros x. apply frame_bind; [apply frame_get_row|]. intros xr.
  apply frame_set_row. by right.
Qed.

Lemma frame_afkmc2_mem X k m : frame nothing (afkmc2_mem X k m).
Proof.
  unfold afkmc2_mem. apply frame_bind_fresh;
    [apply fresh_first_center|apply frame_first_center|].
  intros c. apply frame_bind; [apply frame_shape|]. intros [n d].
  apply frame_bind_fresh; [apply fresh_np_empty|apply frame_np_empty|].
  intros ds. apply frame_bind.
  { apply frame_mapM. intros i. apply frame_distance. by right. }
  intros d2. apply frame_bind; [apply frame_proposal|]. intros q.
  apply frame_bind; [|intros; apply frame_ret].
  apply frame_for_each. intros i. unfold afkmc2_mem_iter.
  apply frame_bind.
  { apply frame_af_iter. intros y. unfold min_distance.
    apply frame_bind; [|intros; apply frame_py_min].
    apply frame_mapM. intros j. apply frame_distance. by right. }
  intros x. apply frame_bind; [apply frame_get_row|]. intros xr.
  apply frame_set_row. left. by right.
Qed.

Lemma fresh_kmpp X k : fresh_result (kmpp X k).
Proof. apply (fresh_seeding X k (λ c, for_each (py_range 1 k) (kmpp_iter X c))). Qed.

Lemma fresh_kmc2 X k m : fresh_result (kmc2 X k m).
Proof. apply (fresh_seeding X k (λ c, for_each (py_range 1 k) (kmc2_iter X c m))). Qed.

Lemma fresh_afkmc2 X k m : fresh_result (afkmc2 X k m).
Proof.
  intros s a Ha. destruct (afkmc2 X k m s) as [r s'] eqn:E.
  simpl in Ha. subst r. unfold afkmc2 in E.
  apply bind_inv_Ok in E as (c & s1 & E1 & E).
  apply bind_inv_Ok in E as ([n d] & s2 & _ & E).
  apply bind_inv_Ok in E as (d2 & s3 & _ & E).
  apply bind_inv_Ok in E as (q & s4 & _ & E).
  apply bind_inv_Ok in E as ([] & s5 & _ & [= <- _]).
  apply (fresh_first_center X k s). by rewrite E1.
Qed.

Lemma fresh_afkmc2_mem X k m : fresh_result (afkmc2_mem X k m).
Proof.
  intros s a Ha. destruct (afkmc2_mem X k m s) as [r s'] eqn:E.
  simpl in Ha. subst r. unfold afkmc2_mem in E.
  apply bind_inv_Ok in E as (c & s1 & E1 & E).
  apply bind_inv_Ok in E as ([n d] & s2 & _ & E).
  apply bind_inv_Ok in E as (ds & s3 & _ & E).
  apply bind_inv_Ok in E as (d2 & s4 & _ & E).
  apply bind_inv_Ok in E as (q & s5 & _ & E).
  apply bind_inv_Ok in E as ([] & s6 & _ & [= <- _]).
  apply (fresh_first_center X k s). by rewrite E1.
Qed.

End Frame.

(** ** Results of the four procedures *)

Section Outcomes.

Context {G : Type} `{RandomSource G}.

Implicit Types (s : @state G) (r : result loc * @state G).


(** The outcome is an exception. *)
Definition raises {A : Type} (r : result A * @state G) : Prop := ∃ e, r.1 = Raise e.

(** The outcome is an exception raised before anything was drawn, allocated
    or written. *)
Definition rejects {A : Type} (m : M A) s : Prop := ∃ e, m s = (Raise e, s).

(** After the outcome [r] the dataset at [X] is still [Xa], and the
    returned centers are not the array at [X]: assigning to [X] afterwards
    leaves them as they are. *)
Definition kept (X : loc) (Xa : ndarray) r : Prop :=
  heap r.2 !! X = Some Xa ∧
  ∀ c, r.1 = Ok c →
    c ≠ X ∧ ∀ Xa', heap (put_array X Xa' r.2).2 !! c = heap r.2 !! c.


Lemma frame_kept X Xa (m : M loc) s :
  frame nothing m → fresh_result m → heap s !! X = Some Xa → kept X Xa (m s).
Proof.
  intros Hfr Hfresh HX.
  assert (Hdom : X ∈ dom (heap s)) by (by apply elem_of_dom).
  split.
  - rewrite <- HX. apply Hfr; [done|]. by intros [].
  - intros c Hc. assert (c ≠ X) by (intros ->; by apply (Hfresh s X)).
    split; [done|]. intros Xa'. simpl. by apply lookup_insert_ne.
Qed.

(** The first center of an invalid configuration. *)
Definition config_error (k : Z) (Xa : ndarray) : exn :=
  if (k <? 0)%Z then ValueError
  else if decide (rows Xa = []) then ValueError
  else IndexError.

Lemma first_center_raises X Xa k s :
  heap s !! X = Some Xa → (k < 1)%Z ∨ rows Xa = [] →
  (first_center X k s).1 = Raise (config_error k Xa).
Proof.
  intros HX Hbad. unfold first_center, config_error.
  rewrite (bind_Ok _ _ _ _ _ (shape_eq _ _ _ HX)). cbn beta iota.
  unfold np_zeros. destruct (Z.ltb_spec k 0) as [Hk|Hk]; [done|].
  set (c := fresh (dom (heap s))).
  pose proof (fresh_loc_None s) as Hc. fold c in Hc.
  assert (Hne : c ≠ X) by (intros E; rewrite E in Hc; congruence).
  set (zs := replicate (Z.to_nat k) (replicate (ncols Xa) (Finite 0))).
  set (s1 := State (rng s) (<[c := NdArray (ncols Xa) zs]> (heap s)) (uninit s)).
  rewrite (bind_Ok _ _ s c s1) by done.
  assert (HX1 : heap s1 !! X = Some Xa) by (simpl; by rewrite lookup_insert_ne).
  rewrite (bind_Ok _ _ _ _ _ (shape_eq _ _ _ HX1)). cbn beta iota.
  destruct (decide (rows Xa = [])) as [Hemp|Hnemp].
  - rewrite (bind_Raise _ _ s1 ValueError s1); [done|].
    unfold random_choice. rewrite Hemp. done.
  - assert (k = 0)%Z as -> by (destruct Hbad; [lia|done]).
    destruct (random_choice_wp (length (rows Xa)) s1
                (λ i _, i < length (rows Xa))) as (i0 & s2 & E0 & Hi0).
    { destruct (rows Xa); simpl; [done|lia]. }
    { done. }
    assert (Hh2 : heap s2 = heap s1).
    { pose proof (frame_random_choice nothing (length (rows Xa)) s1) as Hfr.
      unfold random_choice in E0. destruct (decide _); [done|].
      destruct (rand_index _ _). by injection E0 as _ <-. }
    rewrite (bind_Ok _ _ _ _ _ E0).
    destruct (lookup_lt_is_Some_2 _ _ Hi0) as [x0 Ex0].
    assert (HX2 : heap s2 !! X = Some Xa) by (by rewrite Hh2).
    rewrite (bind_Ok _ _ _ _ _ (get_row_eq _ _ _ _ _ HX2 Ex0)).
    rewrite (bind_Raise _ _ s2 IndexError s2); [done|].
    unfold set_row.
    assert (Ec2 : heap s2 !! c = Some (NdArray (ncols Xa) zs)).
    { rewrite Hh2. simpl. apply lookup_insert_eq. }
    rewrite (bind_Ok _ _ _ _ _ (get_array_eq _ _ _ Ec2)).
    rewrite decide_False; [done|]. simpl. lia.
Qed.

Lemma bind_raises {A B} (m : M A) (f : A → M B) s e :
  (m s).1 = Raise e → ((m ≫= f) s).1 = Raise e.
Proof.
  intros E. unfold mbind, M_bind. destruct (m s) as [[x|e'] s']; [done|].
  simpl in *. congruence.
Qed.

End Outcomes.

(** *** The setup of [afkmc2] and of [afkmc2_mem]: the first center and the
    proposal distribution *)

Section Setup.

Context {G : Type} `{RandomSource G}.

Implicit Types (s : @state G).



Lemma bind_ext {A B} (m : M A) (f g : A → M B) s :
  (∀ x s', f x s' = g x s') → (m ≫= f) s = (m ≫= g) s.
Proof.
  intros Hfg. unfold mbind, M_bind. destruct (m s) as [[x|e] s']; [apply Hfg|done].
Qed.






Lemma proposal_eq d2 n s :
  n ≠ 0 →
  proposal d2 n s =
  (Ok (map (λ d, Fadd (Fdiv d (Fmul (Finite 2) (Fsum d2)))
                      (Finite (1 / (2 * inject_Z (Z.of_nat n))))) d2), s).
Proof.
  intros Hn. unfold proposal, py_inv_2n. rewrite decide_False by done.
  unfold mbind, M_bind, mret, M_ret. by rewrite map_map.
Qed.



End Setup.

Section Observations.

Context {G : Type} `{RandomSource G}.

Implicit Types (s : @state G).

(** The centers returned by a run. *)
Definition centers_of (r : result loc * @state G) : result (list (list float)) :=
  match r with
  | (Ok c, s) =>
      match heap s !! c with
      | Some arr => Ok (rows arr)
      | None => Raise InvalidReference
      end
  | (Raise e, _) => Raise e
  end.

(** With a table that is zero where it is not yet filled, [distance(x, j)]
    is the squared distance of point [x] to center [j], and the table stays
    so. *)
Lemma distance_exact X c ds i x j s Xa ca xr cr :
  memo_ok X c ds i s → j < i →
  heap s !! X = Some Xa → heap s !! c = Some ca →
  rows Xa !! x = Some xr → rows ca !! j = Some cr →
  ∃ s', distance X c ds x j s = (Ok (sqdist xr cr), s') ∧ memo_ok X c ds i s' ∧
        rng s' = rng s ∧ heap s' !! X = Some Xa ∧ heap s' !! c = Some ca.
Proof.
  intros Hm Hj HX Hc Exr Ecr.
  pose proof Hm as (HXd & Hcd & HXc & _).
  set (s1 := State (rng s) (delete ds (heap s)) (uninit s)).
  assert (HR : memo_rel X c ds i s1 s) by done.
  assert (HX1 : heap s1 !! X = Some Xa) by (simpl; by rewrite lookup_delete_ne).
  assert (Hc1 : heap s1 !! c = Some ca) by (simpl; by rewrite lookup_delete_ne).
  pose proof (sim_distance X c ds i x j Hj s1 s HR) as Hsim.
  rewrite (bind_Ok _ _ _ _ _ (get_row_eq _ _ _ _ _ HX1 Exr)) in Hsim.
  rewrite (bind_Ok _ _ _ _ _ (get_row_eq _ _ _ _ _ Hc1 Ecr)) in Hsim.
  cbn in Hsim.
  destruct (distance X c ds x j s) as [[v|e] s'] eqn:E; [|done].
  destruct Hsim as (<- & Hg & _ & Hh & Hm').
  exists s'. split; [done|]. split; [done|]. split; [done|].
  split.
  - rewrite <- HX1, Hh. symmetry. by apply lookup_delete_ne.
  - rewrite <- Hc1, Hh. symmetry. by apply lookup_delete_ne.
Qed.

End Observations.

(** ** Distances that sum to zero *)

Definition zero (x : float) : Prop := ∃ v, x = Finite v ∧ (v == 0)%Q.

Section ZeroSum.

Local Open Scope Q_scope.

Lemma Fadd_zero x y : zero x → zero y → zero (Fadd x y).
Proof. intros (a & -> & Ha) (b & -> & Hb). exists (a + b). split; [done|lra]. Qed.

Lemma Fsum_zero l : Forall zero l → zero (Fsum l).
Proof.
  induction 1 as [|x l Hx _ IH]; [by exists 0|].
  rewrite Fsum_cons. by apply Fadd_zero.
Qed.

Lemma sq_diff_zero a b : is_finite a → is_finite b → Feqb a b = true →
  zero (Fmul (Fsub a b) (Fsub a b)).
Proof.
  destruct a as [a| | |], b as [b| | |]; try done. intros _ _ E.
  apply Qeq_bool_iff in E. eexists. split; [reflexivity|].
  rewrite E. ring.
Qed.

Lemma sqdist_same x c :
  Forall is_finite x → Forall is_finite c → same_point x c = true →
  zero (sqdist x c).
Proof.
  intros Hx. revert c. unfold sqdist.
  induction Hx as [|a x Ha Hx IH]; intros c Hc E.
  - by exists 0.
  - destruct Hc as [|b c Hb Hc]; [discriminate|].
    cbn [zip_with]. rewrite Fsum_cons. cbn [same_point] in E.
    apply andb_true_iff in E as [E1 E2].
    apply Fadd_zero; [by apply sq_diff_zero|by apply IH].
Qed.

Lemma min_of_zero d ds :
  nonneg d → Forall nonneg ds → zero d ∨ Exists zero ds → zero (min_of d ds).
Proof.
  unfold min_of. intros Hd Hds. revert d Hd.
  induction Hds as [|y ds Hy Hds IH]; intros d Hd Hz; simpl.
  - destruct Hz as [?|Hz]; [done|by apply Exists_nil in Hz].
  - destruct Hd as (a & -> & Ha), Hy as (b & -> & Hb). simpl.
    unfold Qltb. destruct (Qle_bool a b) eqn:E; simpl.
    + apply IH; [by exists a|]. destruct Hz as [?|Hz]; [by left|].
      apply Exists_cons in Hz as [(b' & [= <-] & Hb')|?]; [|by right].
      left. exists a. split; [done|]. apply Qle_bool_iff in E. lra.
    + apply IH; [by exists b|]. destruct Hz as [(a' & [= <-] & Ha')|Hz].
      * left. exists b. split; [done|].
        assert (¬ a <= b) by (intros ?%Qle_bool_iff; congruence). lra.
      * apply Exists_cons in Hz as [?|?]; [by left|by right].
Qed.

Lemma least_zero ds d :
  Forall nonneg ds → Exists zero ds → least ds d → zero d.
Proof.
  intros Hnn Hz (d0 & ds' & -> & ->).
  apply Forall_cons in Hnn as [Hd0 Hds'].
  apply min_of_zero; [done..|]. by apply Exists_cons in Hz.
Qed.

Lemma normalise_zero D2 :
  Forall zero D2 → map (λ v, Fdiv v (Fsum D2)) D2 = map (λ _, NaN) D2.
Proof.
  intros Hz. destruct (Fsum_zero _ Hz) as (t & -> & Ht).
  apply map_ext_Forall. eapply Forall_impl; [exact Hz|].
  intros x (v & -> & Hv). simpl.
  rewrite (proj2 (Qeq_bool_iff t 0) Ht). unfold inf_of_sign.
  by rewrite (proj1 (Qeq_alt v 0) Hv).
Qed.

Lemma cumsum_from_NaN (l : list float) :
  cumsum_from NaN l = map (λ _, NaN) l.
Proof. induction l as [|x l IH]; [done|]. simpl. by rewrite IH. Qed.

Lemma cumsum_NaN {A} (l : list A) :
  cumsum (map (λ _, NaN) l) = map (λ _, NaN) l.
Proof.
  destruct l as [|x l]; [done|]. simpl. rewrite cumsum_from_NaN.
  by rewrite map_map.
Qed.

Lemma where_ge_NaN {A} (l : list A) r i : where_ge (map (λ _, NaN) l) r i = [].
Proof.
  revert i. induction l as [|x l IH]; intros i; [done|]. simpl.
  destruct r; simpl; apply IH.
Qed.

End ZeroSum.

Section ZeroSumRuns.

Context {G : Type} `{RandomSource G}.

Implicit Types (s : @state G) (cs : list (list float)).

(** With distances that are all zero, every probability is NaN and no
    cumulative probability is [>= r]. *)
Lemma kmpp_select_zero D2 r s :
  Forall zero D2 → kmpp_select D2 r s = (Raise IndexError, s).
Proof.
  intros Hz. unfold kmpp_select, first_where_ge.
  by rewrite (normalise_zero _ Hz), cumsum_NaN, where_ge_NaN.
Qed.

Lemma random_uniform_eq s :
  random_uniform s =
  (Ok (Finite (rand_uniform (rng s)).1), set_rng (rand_uniform (rng s)).2 s).
Proof. unfold random_uniform. by destruct (rand_uniform (rng s)). Qed.

(** [covered Xa cs i]: every point of the dataset coincides with one of the
    first [i] centers. *)
Definition covered (Xa : ndarray) cs (i : nat) : Prop :=
  Forall (λ x, Exists (λ cr, same_point x cr = true) (take i cs)) (rows Xa).

Lemma kmpp_iter_covered X c Xa s0 k i s cs :
  heap s0 !! X = Some Xa → heap s0 !! c = None → valid_dataset Xa →
  1 ≤ i ≤ k → seeding c Xa s0 k i s →
  heap s !! c = Some (NdArray (ncols Xa) cs) → covered Xa cs i →
  (kmpp_iter X c i s).1 = Raise IndexError.
Proof.
  intros HX Hc Hvalid Hi Hs Ecs Hcov. unfold kmpp_iter.
  destruct (seeding_centers _ _ _ _ _ _ Hs) as (cs' & Ecs' & Hlen & Hrows).
  assert (cs' = cs) as -> by congruence.
  pose proof (chosen_rows Xa _ _ Hrows) as Hchosen.
  rewrite (bind_Ok _ _ _ _ _ (get_rows_eq _ _ _ (seeding_X X c Xa s0 _ HX Hc _ _ Hs))).
  destruct (wp_mapM (λ s', s' = s) (λ x d, least (dists_to x cs i) d)
              (λ x, min_dist_row c x i) (rows Xa) s) as (D2 & s1 & ED2 & HD2 & ->).
  { done. }
  { intros x s1 Hx ->. eapply min_dist_row_wp; [done|lia|lia|done]. }
  rewrite (bind_Ok _ _ _ _ _ ED2).
  rewrite (bind_Ok _ _ _ _ _ (random_uniform_eq s)).
  apply bind_raises. rewrite kmpp_select_zero; [done|].
  apply Forall_forall. intros d Hd.
  apply list_elem_of_lookup in Hd as (j & Ej).
  destruct (Forall2_lookup_r _ _ _ _ _ HD2 Ej) as (x & Ex & Hleast).
  assert (Hx : x ∈ rows Xa) by (by eapply list_elem_of_lookup_2).
  destruct (valid_row Xa Hvalid x Hx) as [_ Hfx].
  eapply least_zero; [| |exact Hleast].
  - apply Forall_forall. intros d' (cr & -> & Hcr)%list_elem_of_fmap.
    rewrite Forall_forall in Hchosen.
    apply sqdist_nonneg; [done|]. by apply (valid_row Xa Hvalid), Hchosen.
  - unfold covered in Hcov. rewrite Forall_forall in Hcov.
    specialize (Hcov x Hx). apply Exists_exists in Hcov as (cr & Hcr & Esame).
    apply Exists_exists. exists (sqdist x cr).
    split; [apply list_elem_of_fmap; by exists cr|].
    rewrite Forall_forall in Hchosen.
    apply sqdist_same; [done| |done]. by apply (valid_row Xa Hvalid), Hchosen.
Qed.

(** When all the points coincide, [kmpp] raises for every [k >= 2]. *)
Lemma kmpp_all_coincide X Xa k s :
  heap s !! X = Some Xa → valid_dataset Xa → rows Xa ≠ [] →
  (∀ x y, x ∈ rows Xa → y ∈ rows Xa → same_point x y = true) →
  (2 ≤ k)%Z →
  (kmpp X k s).1 = Raise IndexError.
Proof.
  intros HX Hvalid Hne Hsame Hk. unfold kmpp.
  destruct (first_center_wp X Xa s k HX Hne) as (c & s1 & E1 & -> & Hs1); [lia|].
  rewrite (bind_Ok _ _ _ _ _ E1). apply bind_raises.
  assert (Er : py_range 1 k = 1 :: py_range 2 k).
  { unfold py_range. replace (Z.to_nat (k - 1)) with (S (Z.to_nat (k - 2))) by lia.
    done. }
  rewrite Er. cbn [for_each]. apply bind_raises.
  destruct (seeding_centers _ _ _ _ _ _ Hs1) as (cs & Ecs & Hlen & Hrows).
  apply (kmpp_iter_covered X _ Xa s (Z.to_nat k) 1 s1 cs);
    [done|apply fresh_loc_None|done|lia|done..|].
  destruct (Hrows 0) as (c0 & Ec0 & Hc0); [lia|].
  apply Forall_forall. intros x Hx. apply Exists_exists. exists c0.
  split; [|by apply Hsame].
  eapply list_elem_of_lookup_2. apply lookup_take_Some. split; [done|lia].
Qed.

End ZeroSumRuns.

(** ** Chains and their steps *)


(** [step] repeated [t] times. *)
Fixpoint repeat_step {G T : Type} (t : nat) (step : T → @M G T) (st : T) : @M G T :=
  match t with
  | 0 => mret st
  | S t' => st' ← step st; repeat_step t' step st'
  end.

Section Chains.

Context {G : Type} `{RandomSource G}.

Implicit Types (s : @state G) (cs : list (list float)).


Lemma random_choice_eq n s :
  n ≠ 0 →
  random_choice n s =
  (Ok (rand_index n (rng s)).1, set_rng (rand_index n (rng s)).2 s).
Proof.
  intros Hn. unfold random_choice. rewrite decide_False by done.
  by destruct (rand_index n (rng s)).
Qed.

Lemma for_fold_repeat {A T} (body : T → A → M T) (step : T → M T) l st s :
  (∀ st' a s', body st' a s' = step st' s') →
  for_fold l body st s = repeat_step (length l) step st s.
Proof.
  intros Hb. revert st s. induction l as [|a l IH]; intros st s; [done|].
  cbn [for_fold length repeat_step]. unfold mbind, M_bind. rewrite Hb.
  destruct (step st s) as [[st'|e] s']; [apply IH|done].
Qed.

Lemma bind_ext_l {A B} (m m' : M A) (f : A → M B) s :
  m s = m' s → (m ≫= f) s = (m' ≫= f) s.
Proof. intros E. unfold mbind, M_bind. by rewrite E. Qed.

(** A chain of [kmc2]: a first candidate, [m - 1] further steps, and the
    current candidate becomes center [i]. *)
Lemma kmc2_iter_chain X c m i s :
  kmc2_iter X c m i s =
  ('(n, _) ← shape X;
   x ← random_choice n;
   dx2 ← min_dist X c x i;
   '(x, _) ← repeat_step (Z.to_nat (m - 1)) (λ st, kmc2_step X c n i st 0) (x, dx2);
   xr ← get_row X x;
   set_row c i xr) s.
Proof.
  unfold kmc2_iter. apply bind_ext. intros [n d] s1.
  apply bind_ext. intros x s2. apply bind_ext. intros dx2 s3.
  apply bind_ext_l. rewrite <- (py_range_length 1 m).
  apply for_fold_repeat. by intros [x1 dx1] j s4.
Qed.

(** A chain of [afkmc2], likewise. *)
Lemma af_iter_chain (dist : nat → M float) X c q m s :
  af_iter dist X c q m s =
  ('(n, _) ← shape X;
   x ← random_choice_p n q;
   dx2 ← dist x;
   '(x, _) ← repeat_step (Z.to_nat (m - 1)) (λ st, af_step dist n q st 0) (x, dx2);
   mret x) s.
Proof.
  unfold af_iter. apply bind_ext. intros [n d] s1.
  apply bind_ext. intros x s2. apply bind_ext. intros dx2 s3.
  apply bind_ext_l. rewrite <- (py_range_length 1 m).
  apply for_fold_repeat. by intros [x1 dx1] j s4.
Qed.

Lemma min_dist_eq X c Xa cs x xr i s :
  heap s !! X = Some Xa → rows Xa !! x = Some xr →
  heap s !! c = Some (NdArray (ncols Xa) cs) → 0 < i → i ≤ length cs →
  ∃ d, least (dists_to xr cs i) d ∧ min_dist X c x i s = (Ok d, s).
Proof.
  intros HX Exr Ec H0 Hi.
  destruct (min_dist_wp X c Xa i cs x xr s (λ d s', least (dists_to xr cs i) d ∧ s' = s))
    as (d & s' & E & Hd & ->); [done..|].
  by exists d.
Qed.

(** One step of the chain of [kmc2]. *)
Lemma kmc2_step_eq X c Xa cs i x dx2 j s :
  heap s !! X = Some Xa → rows Xa ≠ [] →
  heap s !! c = Some (NdArray (ncols Xa) cs) → 0 < i → i ≤ length cs →
  let n := length (rows Xa) in
  let y := (rand_index n (rng s)).1 in
  let g1 := (rand_index n (rng s)).2 in
  let u := (rand_uniform g1).1 in
  let g2 := (rand_uniform g1).2 in
  ∃ yr dy2,
    rows Xa !! y = Some yr ∧ least (dists_to yr cs i) dy2 ∧
    (0 <= u)%Q ∧ (u < 1)%Q ∧
    kmc2_step X c n i (x, dx2) j s =
      (Ok (if Fgtb (Fdiv dy2 dx2) (Finite u) then (y, dy2) else (x, dx2)),
       set_rng g2 s).
Proof.
  intros HX Hne Ec H0 Hi n y g1 u g2.
  assert (Hn : 0 < n) by (unfold n; destruct (rows Xa); simpl; [done|lia]).
  assert (Hy : y < n) by (by apply rand_index_lt).
  destruct (lookup_lt_is_Some_2 _ _ Hy) as [yr Eyr].
  destruct (min_dist_eq X c Xa cs y yr i (set_rng g1 s)) as (dy2 & Hdy2 & Edy2);
    [done..|].
  destruct (rand_uniform_range g1) as [Hu0 Hu1].
  exists yr, dy2. split; [done|]. split; [done|]. split; [done|]. split; [done|].
  unfold kmc2_step.
  rewrite (bind_Ok _ _ _ _ _ (random_choice_eq n s ltac:(lia))).
  fold y g1. rewrite (bind_Ok _ _ _ _ _ Edy2).
  rewrite (bind_Ok _ _ _ _ _ (random_uniform_eq (set_rng g1 s))).
  cbn [rng set_rng]. fold u g2. by destruct (Fgtb _ _).
Qed.

Lemma random_choice_p_eq n q s :
  length q = n → prob_vector q →
  ∃ y, (rand_weighted q (rng s)).1 = Some y ∧ y < n ∧
       random_choice_p n q s = (Ok y, set_rng (rand_weighted q (rng s)).2 s).
Proof.
  intros Hlen Hq. destruct (rand_weighted_lt q (rng s) Hq) as (y & Ey & Hy).
  exists y. split; [done|]. split; [lia|].
  unfold random_choice_p.
  assert (n ≠ 0) by (destruct Hq as [Hne _]; destruct q; simpl in *; [done|lia]).
  rewrite decide_False by done. rewrite decide_True by done.
  destruct (rand_weighted q (rng s)) as [o g]. simpl in Ey. by subst o.
Qed.

(** One step of the chain of [afkmc2]. *)
Lemma af_step_eq X c Xa cs q i x dx2 j s :
  heap s !! X = Some Xa → heap s !! c = Some (NdArray (ncols Xa) cs) →
  0 < i → i ≤ length cs →
  length q = length (rows Xa) → prob_vector q → x < length (rows Xa) →
  let n := length (rows Xa) in
  let g1 := (rand_weighted q (rng s)).2 in
  let u := (rand_uniform g1).1 in
  let g2 := (rand_uniform g1).2 in
  ∃ y yr dy2 qx qy,
    (rand_weighted q (rng s)).1 = Some y ∧
    rows Xa !! y = Some yr ∧ least (dists_to yr cs i) dy2 ∧
    q !! x = Some qx ∧ q !! y = Some qy ∧
    (0 <= u)%Q ∧ (u < 1)%Q ∧
    af_step (λ y', min_dist X c y' i) n q (x, dx2) j s =
      (Ok (if Fgtb (Fdiv (Fmul dy2 qx) (Fmul dx2 qy)) (Finite u)
           then (y, dy2) else (x, dx2)),
       set_rng g2 s).
Proof.
  intros HX Ec H0 Hi Hlen Hq Hx n g1 u g2.
  destruct (random_choice_p_eq n q s Hlen Hq) as (y & Ey & Hy & Echoice).
  destruct (lookup_lt_is_Some_2 _ _ Hy) as [yr Eyr].
  destruct (min_dist_eq X c Xa cs y yr i (set_rng g1 s)) as (dy2 & Hdy2 & Edy2);
    [done..|].
  destruct (lookup_lt_is_Some_2 q x) as [qx Eqx]; [lia|].
  destruct (lookup_lt_is_Some_2 q y) as [qy Eqy]; [unfold n in Hy; lia|].
  destruct (rand_uniform_range g1) as [Hu0 Hu1].
  exists y, yr, dy2, qx, qy.
  split; [done|]. split; [done|]. split; [done|]. split; [done|].
  split; [done|]. split; [done|]. split; [done|].
  unfold af_step.
  rewrite (bind_Ok _ _ _ _ _ Echoice). fold g1.
  rewrite (bind_Ok _ _ _ _ _ Edy2).
  unfold index. rewrite Eqx, Eqy.
  rewrite (bind_Ok _ _ (set_rng g1 s) qx (set_rng g1 s)) by done.
  rewrite (bind_Ok _ _ (set_rng g1 s) qy (set_rng g1 s)) by done.
  rewrite (bind_Ok _ _ _ _ _ (random_uniform_eq (set_rng g1 s))).
  cbn [rng set_rng]. fold u g2. by destruct (Fgtb _ _).
Qed.

End Chains.

(** ** The choice of [kmpp] as inverse-CDF sampling *)



Section InverseCDF.

Context {G : Type} `{RandomSource G}.

Implicit Types (s : @state G) (cs : list (list float)).







End InverseCDF.

(** ** A scripted random source

    The draws are read off a list.  An entry [t] answers a request for an
    index below [n] with [t mod n] and a request for a uniform number with
    [u = (t mod 16)/16]; a request for an index distributed as [p] is
    answered as [np.random.choice] does, by the number of entries of the
    cumulative sums of [p] that are [<= u].  The empty list answers 0. *)

Definition script : Type := list nat.

Definition script_index (n : nat) (g : script) : nat * script :=
  match g with
  | [] => (0, [])
  | t :: g' => (t mod n, g')
  end.

Definition script_u (t : nat) : Q := (inject_Z (Z.of_nat (t mod 16)) / 16)%Q.

Definition script_uniform (g : script) : Q * script :=
  match g with
  | [] => (0%Q, [])
  | t :: g' => (script_u t, g')
  end.

(** [cdf.searchsorted(u, side='right')] *)
Definition count_le (cdf : list float) (u : Q) : nat :=
  length (List.filter (λ c, Fleb c (Finite u)) cdf).

Definition script_weighted (p : list float) (g : script) : option nat * script :=
  match g with
  | [] => (Some 0, [])
  | t :: g' => (Some (count_le (cumsum p) (script_u t)), g')
  end.

Lemma script_index_lt n g : 0 < n → (script_index n g).1 < n.
Proof.
  intros Hn. destruct g as [|t g]; simpl; [done|].
  apply Nat.mod_upper_bound. lia.
Qed.

Lemma script_u_range t : (0 <= script_u t)%Q ∧ (script_u t < 1)%Q.
Proof.
  unfold script_u.
  assert (Hb : t mod 16 < 16) by (apply Nat.mod_upper_bound; lia).
  assert (H0 : (0 <= inject_Z (Z.of_nat (t mod 16)))%Q).
  { change 0%Q with (inject_Z 0). rewrite <- Zle_Qle. lia. }
  assert (H1 : (inject_Z (Z.of_nat (t mod 16)) < 16)%Q).
  { change 16%Q with (inject_Z 16). rewrite <- Zlt_Qlt. lia. }
  split.
  - apply Qle_shift_div_l; lra.
  - apply Qlt_shift_div_r; lra.
Qed.

Lemma script_uniform_range g :
  (0 <= (script_uniform g).1)%Q ∧ ((script_uniform g).1 < 1)%Q.
Proof.
  destruct g as [|t g]; unfold script_uniform; cbn [fst].
  - split; [apply Qle_refl | reflexivity].
  - apply script_u_range.
Qed.

Lemma script_weighted_lt p g : prob_vector p →
  ∃ i, (script_weighted p g).1 = Some i ∧ i < length p.
Proof.
  intros (Hne & Hnn & t1 & Esum & Ht1).
  assert (0 < length p) by (destruct p; simpl; [done|lia]).
  destruct g as [|t g]; simpl; eexists; (split; [reflexivity|]); [lia|].
  destruct (nonneg_list p Hnn) as (vs & -> & _).
  rewrite Fsum_Finite in Esum. injection Esum as <-.
  destruct (cumsum_total vs) as (c & Hc & Ec); [by destruct vs|].
  unfold count_le. rewrite <- (cumsum_length (map Finite vs)).
  apply (filter_length_lt _ _ (Finite c)); [done|]. simpl.
  apply not_true_iff_false. intros Hle%Qle_bool_iff.
  destruct (script_u_range t) as [_ Hu]. rewrite Ec, Ht1 in Hle. lra.
Qed.

#[export] Instance script_source : RandomSource script := {|
  rand_index := script_index;
  rand_uniform := script_uniform;
  rand_weighted := script_weighted;
  rand_index_lt := script_index_lt;
  rand_uniform_range := script_uniform_range;
  rand_weighted_lt := script_weighted_lt
|}.

Definition fl (z : Z) : float := Finite (inject_Z z).

(** ** Properties of the procedures *)

(** *** Example data *)

Definition zero_memory : nat → nat → float := λ _ _, Finite 0.

(** Two points at the same place. *)
Definition X_twice : ndarray := NdArray 1 [[fl 0]; [fl 0]].

(** One point. *)
Definition X_single : ndarray := NdArray 1 [[fl 0]].

(** Two clusters of two points. *)
Definition X_clusters : ndarray :=
  NdArray 2 [[fl 0; fl 0]; [fl 0; fl 1]; [fl 10; fl 0]; [fl 10; fl 1]].

Definition state_of (g : script) (Xa : ndarray) (junk : nat → nat → float)
    : @state script :=
  State g {[ 1%positive := Xa ]} junk.

(** Three points on a line. *)
Definition X_line : ndarray := NdArray 1 [[fl 0]; [fl 1]; [fl 3]].

(** Memory that holds the number 5 everywhere. *)
Definition stale_memory : nat → nat → float := λ _ _, fl 5.

(** The state of a run on the dataset [Xa] in which the centers, at
    location 2, are [cs]. *)
Definition state_with_centers (g : script) (Xa : ndarray)
    (cs : list (list float)) (junk : nat → nat → float) : @state script :=
  State g {[ 1%positive := Xa; 2%positive := NdArray (ncols Xa) cs ]} junk.

(** The uniform distribution over four points. *)
Definition q_uniform4 : list float :=
  [Finite (1 # 4); Finite (1 # 4); Finite (1 # 4); Finite (1 # 4)].

Lemma q_uniform4_prob_vector : prob_vector q_uniform4.
Proof.
  split; [discriminate|]. split.
  - repeat constructor; eexists; (split; [reflexivity|discriminate]).
  - eexists. split; [reflexivity|]. reflexivity.
Defined.

(** *** C1 *)




(** *** C2 *)

(** C2, as stated, fails: [k = 2] centers of a dataset of one point is an
    invalid configuration ([k > n]) that [kmc2] does not reject; it returns
    the point twice. *)
Lemma kmc2_accepts_k_above_n :
  (Z.of_nat (length (rows X_single)) < 2)%Z ∧
  kmc2 1%positive 2 1 (state_of [0; 0] X_single zero_memory)
    = (Ok 2%positive,
       State [] {[ 1%positive := X_single; 2%positive := X_twice ]} zero_memory) ∧
  ¬ raises (kmc2 1%positive 2 1 (state_of [0; 0] X_single zero_memory)) ∧
  ¬ rejects (kmc2 1%positive 2 1) (state_of [0; 0] X_single zero_memory).
Proof.
  assert (E : kmc2 1%positive 2 1 (state_of [0; 0] X_single zero_memory)
    = (Ok 2%positive,
       State [] {[ 1%positive := X_single; 2%positive := X_twice ]} zero_memory)).
  { vm_compute. reflexivity. }
  split; [simpl; lia|]. split; [exact E|]. split.
  - intros [e He]. rewrite E in He. discriminate.
  - intros [e He]. rewrite E in He. discriminate.
Qed.

(** C2, amended: for [k < 1], and for an empty dataset, each of the four
    procedures raises an exception and returns nothing: [ValueError] from
    [np.zeros] for [k < 0], [ValueError] from [np.random.choice] for an
    empty dataset, and for [k = 0] [IndexError] from the assignment of the
    first center, after the first draw.  ([k > n] and [m < 1] are not
    rejected.) *)
Theorem invalid_configuration_raises {G : Type} `{RandomSource G}
    (X : loc) (Xa : ndarray) (k m : Z) (s : @state G) :
  heap s !! X = Some Xa → (k < 1)%Z ∨ rows Xa = [] →
  (kmpp X k s).1 = Raise (config_error k Xa) ∧
  (kmc2 X k m s).1 = Raise (config_error k Xa) ∧
  (afkmc2 X k m s).1 = Raise (config_error k Xa) ∧
  (afkmc2_mem X k m s).1 = Raise (config_error k Xa).
Proof.
  intros HX Hbad.
  pose proof (first_center_raises X Xa k s HX Hbad) as Hfc.
  repeat split; by apply bind_raises.
Qed.

Lemma invalid_configuration_raises_witness :
  let s := state_of [0; 0] X_single zero_memory in
  (kmpp 1%positive 0 s).1 = Raise IndexError ∧
  (kmc2 1%positive 0 200 s).1 = Raise IndexError ∧
  (afkmc2 1%positive 0 200 s).1 = Raise IndexError ∧
  (afkmc2_mem 1%positive 0 200 s).1 = Raise IndexError.
Proof.
  intros s.
  apply (invalid_configuration_raises 1%positive X_single 0 200 s).
  - reflexivity.
  - left. lia.
Defined.

(** *** C3 *)

(** C3, on uninitialised memory: [np.empty] does not clear the table.  With
    the same dataset, [k = 2], [m = 2] and the same draws (first center 0,
    then the uniform numbers 3/4, 3/8 and 1/2) both procedures start the
    chain at point 2 and propose point 1; [afkmc2] finds the ratio 37/117
    and keeps point 2, while [afkmc2_mem], reading 5 for every distance,
    finds the ratio 1 and moves to point 1. *)
Theorem afkmc2_mem_uninitialised_differs :
  let s := state_of [0; 12; 6; 8] X_line stale_memory in
  centers_of (afkmc2 1%positive 2 2 s) = Ok [[fl 0]; [fl 3]] ∧
  centers_of (afkmc2_mem 1%positive 2 2 s) = Ok [[fl 0]; [fl 1]].
Proof. split; vm_compute; reflexivity. Qed.

(** *** C4 *)




(** *** C5 *)



(** *** C6 *)



(** *** C7 *)



(** The run of the example: the distances to the first center are 0, 1,
    100 and 101, the cumulative probabilities 0, 1/202, 1/2 and 1, and with
    [u = 1/2] [kmpp] stores point 2. *)
Example kmpp_inverse_cdf_example :
  centers_of (kmpp 1%positive 2 (state_of [0; 8] X_clusters zero_memory))
  = Ok [[fl 0; fl 0]; [fl 10; fl 0]].
Proof. vm_compute. reflexivity. Qed.

(** *** C8 *)




(** *** C9 *)

(** C9, on uninitialised memory: a cell of the fresh table that holds 5 is
    taken for a stored distance, and [distance(1, 0)] returns 5 for the
    points 1 and 0, whose squared distance is 1. *)
Theorem distance_uninitialised_wrong :
  let s := state_of [0] X_line stale_memory in
  ((centers ← first_center 1%positive 2;
    d_store ← np_empty 3 2;
    distance 1%positive centers d_store 1 0) s).1 = Ok (fl 5) ∧
  Feqb (sqdist [fl 1] [fl 0]) (fl 1) = true.
Proof. split; vm_compute; reflexivity. Qed.

(** *** C10 *)

(** C10: whatever its outcome, none of the four procedures changes the
    dataset, and the reference it returns is to an array of its own: the
    centers stay as they are when the dataset is assigned to afterwards. *)
Theorem dataset_not_modified {G : Type} `{RandomSource G}
    (X : loc) (Xa : ndarray) (k m : Z) (s : @state G) :
  heap s !! X = Some Xa →
  kept X Xa (kmpp X k s) ∧ kept X Xa (kmc2 X k m s) ∧
  kept X Xa (afkmc2 X k m s) ∧ kept X Xa (afkmc2_mem X k m s).
Proof.
  intros HX. split; [|split; [|split]].
  - by apply frame_kept; [apply frame_kmpp|apply fresh_kmpp|].
  - by apply frame_kept; [apply frame_kmc2|apply fresh_kmc2|].
  - by apply frame_kept; [apply frame_afkmc2|apply fresh_afkmc2|].
  - by apply frame_kept; [apply frame_afkmc2_mem|apply fresh_afkmc2_mem|].
Qed.

Lemma dataset_not_modified_witness :
  let s := state_of [0; 2; 1; 3; 5; 10] X_clusters zero_memory in
  kept 1%positive X_clusters (kmpp 1%positive 2 s) ∧
  kept 1%positive X_clusters (kmc2 1%positive 2 3 s) ∧
  kept 1%positive X_clusters (afkmc2 1%positive 2 3 s) ∧
  kept 1%positive X_clusters (afkmc2_mem 1%positive 2 3 s).
Proof.
  intros s. apply (dataset_not_modified 1%positive X_clusters 2 3 s). reflexivity.
Defined.

(** ** Further properties of the procedures *)

Section FirstCenter.

Context {G : Type} `{RandomSource G}.

Implicit Types (s : @state G) (cs : list (list float)).

(** The array of centers after the first center: [k] rows of zeros with the
    drawn point in row 0. *)
Lemma first_center_eq X Xa k s :
  heap s !! X = Some Xa → rows Xa ≠ [] → (1 ≤ k)%Z →
  let n := length (rows Xa) in
  let i0 := (rand_index n (rng s)).1 in
  let g := (rand_index n (rng s)).2 in
  let c := fresh (dom (heap s)) in
  ∃ x0, rows Xa !! i0 = Some x0 ∧
    first_center X k s =
      (Ok c, State g
         (<[c := NdArray (ncols Xa)
                   (<[0 := x0]> (replicate (Z.to_nat k)
                                   (replicate (ncols Xa) (Finite 0))))]> (heap s))
         (uninit s)).
Proof.
  intros HX Hne Hk n i0 g c.
  assert (Hn : 0 < n) by (unfold n; destruct (rows Xa); simpl; [done|lia]).
  assert (Hi0 : i0 < n) by (by apply rand_index_lt).
  destruct (lookup_lt_is_Some_2 _ _ Hi0) as [x0 Ex0].
  exists x0. split; [done|]. unfold first_center.
  rewrite (bind_Ok _ _ _ _ _ (shape_eq _ _ _ HX)). cbn beta iota.
  pose proof (fresh_loc_None s) as Hc. fold c in Hc.
  assert (Hcx : c ≠ X) by (intros E; rewrite E in Hc; congruence).
  set (zs := replicate (Z.to_nat k) (replicate (ncols Xa) (Finite 0))).
  set (s1 := State (rng s) (<[c := NdArray (ncols Xa) zs]> (heap s)) (uninit s)).
  assert (E1 : np_zeros k (ncols Xa) s = (Ok c, s1)).
  { unfold np_zeros. destruct (Z.ltb_spec k 0) as [?|_]; [lia|]. done. }
  rewrite (bind_Ok _ _ _ _ _ E1).
  assert (HX1 : heap s1 !! X = Some Xa) by (simpl; by rewrite lookup_insert_ne).
  rewrite (bind_Ok _ _ _ _ _ (shape_eq _ _ _ HX1)). cbn beta iota.
  rewrite (bind_Ok _ _ _ _ _ (random_choice_eq n s1 ltac:(lia))).
  cbn [rng s1]. fold i0 g.
  rewrite (bind_Ok _ _ (set_rng g s1) x0 (set_rng g s1))
    by (by eapply get_row_eq).
  rewrite (bind_Ok _ _ (set_rng g s1) ()
             (State g (<[c := NdArray (ncols Xa) (<[0 := x0]> zs)]> (heap s))
                (uninit s))); [done|].
  rewrite (set_row_eq c (NdArray (ncols Xa) zs) 0 x0 (set_rng g s1)).
  - simpl. by rewrite insert_insert_eq.
  - simpl. apply lookup_insert_eq.
  - simpl. unfold zs. rewrite length_replicate. lia.
Qed.

(** What a call [distance(i, j)] returns and writes, cell by cell. *)
Lemma distance_eq X c ds Xa ca D i j r v0 xr cr s :
  heap s !! X = Some Xa → heap s !! c = Some ca → heap s !! ds = Some D →
  rows D !! i = Some r → r !! j = Some v0 →
  rows Xa !! i = Some xr → rows ca !! j = Some cr →
  distance X c ds i j s =
    if Fis_zero v0
    then (Ok (sqdist xr cr),
          State (rng s)
            (<[ds := NdArray (ncols D) (<[i := <[j := sqdist xr cr]> r]> (rows D))]>
               (heap s))
            (uninit s))
    else (Ok v0, s).
Proof.
  intros HX Hc HD Er Ev Exr Ecr. unfold distance.
  rewrite (bind_Ok _ _ _ _ _ (get_cell_eq _ _ _ _ _ _ _ HD Er Ev)).
  destruct (Fis_zero v0).
  - set (D' := NdArray (ncols D) (<[i := <[j := sqdist xr cr]> r]> (rows D))).
    set (s' := State (rng s) (<[ds := D']> (heap s)) (uninit s)).
    assert (Eset : (xr' ← get_row X i; c' ← get_row c j;
                    set_cell ds i j (sqdist xr' c')) s = (Ok (), s')).
    { rewrite (bind_Ok _ _ _ _ _ (get_row_eq _ _ _ _ _ HX Exr)).
      rewrite (bind_Ok _ _ _ _ _ (get_row_eq _ _ _ _ _ Hc Ecr)).
      apply (set_cell_eq _ D _ _ r); [done..|]. by eapply lookup_lt_Some. }
    rewrite (bind_Ok _ _ _ _ _ Eset).
    apply (get_cell_eq _ D' _ _ (<[j := sqdist xr cr]> r)).
    + apply lookup_insert_eq.
    + apply list_lookup_insert_eq. by eapply lookup_lt_Some.
    + apply list_lookup_insert_eq. by eapply lookup_lt_Some.
  - rewrite (bind_Ok _ _ s () s) by done.
    by apply (get_cell_eq _ D _ _ r).
Qed.

(** The shape of the table at [ds]: one row for each of the [n] points and
    one column for each row of the centers; [X] and [c] hold [Xa] and [ca]. *)
Definition table_for (X c ds : loc) (Xa ca : ndarray) s : Prop :=
  X ≠ ds ∧ c ≠ ds ∧
  heap s !! X = Some Xa ∧ heap s !! c = Some ca ∧
  ∃ D, heap s !! ds = Some D ∧ length (rows D) = length (rows Xa) ∧
       Forall (λ r, length r = length (rows ca)) (rows D).

(** Whatever the table holds, a call for a point and a center in range
    returns and keeps the shape of the table. *)
Lemma distance_total X c ds Xa ca i j s :
  table_for X c ds Xa ca s → i < length (rows Xa) → j < length (rows ca) →
  wp (distance X c ds i j) s (λ _ s',
    table_for X c ds Xa ca s' ∧ rng s' = rng s ∧ uninit s' = uninit s).
Proof.
  intros (HXd & Hcd & HX & Hc & D & HD & HlenD & Hcols) Hi Hj.
  destruct (lookup_lt_is_Some_2 (rows Xa) i Hi) as [xr Exr].
  destruct (lookup_lt_is_Some_2 (rows ca) j Hj) as [cr Ecr].
  destruct (lookup_lt_is_Some_2 (rows D) i) as [r Er]; [lia|].
  assert (Hlr : length r = length (rows ca)).
  { rewrite Forall_forall in Hcols. apply Hcols. by eapply list_elem_of_lookup_2. }
  destruct (lookup_lt_is_Some_2 r j) as [v0 Ev]; [lia|].
  pose proof (distance_eq X c ds Xa ca D i j r v0 xr cr s HX Hc HD Er Ev Exr Ecr) as E.
  destruct (Fis_zero v0); (eapply wp_eq; [exact E|]).
  - split; [|done]. split; [done|]. split; [done|]. cbn [heap].
    split; [by rewrite lookup_insert_ne|]. split; [by rewrite lookup_insert_ne|].
    eexists. split; [apply lookup_insert_eq|]. cbn [rows].
    split; [by rewrite length_insert|].
    apply Forall_insert; [done|]. by rewrite length_insert.
  - split; [|done]. split; [done|]. split; [done|]. split; [done|]. split; [done|].
    by exists D.
Qed.

End FirstCenter.

Section FurtherMemo.

Context {G : Type} `{RandomSource G}.

Implicit Types (s : @state G) (cs : list (list float)).

(** The cell [(a, b)] of a table. *)
Definition cell (D : ndarray) (a b : nat) : option float :=
  rows D !! a ≫= λ r, r !! b.

(** X1: for [k = 1] and a non-empty dataset each of the four procedures
    returns one center, the point of the index drawn first, for every [m]
    and whatever the uninitialised memory holds. *)
Theorem single_center (X : loc) (Xa : ndarray) (m : Z) s :
  heap s !! X = Some Xa → rows Xa ≠ [] →
  ∃ x0, rows Xa !! (rand_index (length (rows Xa)) (rng s)).1 = Some x0 ∧
    centers_of (kmpp X 1 s) = Ok [x0] ∧
    centers_of (kmc2 X 1 m s) = Ok [x0] ∧
    centers_of (afkmc2 X 1 m s) = Ok [x0] ∧
    centers_of (afkmc2_mem X 1 m s) = Ok [x0].
Proof.
  intros HX Hne.
  destruct (first_center_eq X Xa 1 s HX Hne) as (x0 & Ex0 & E); [lia|].
  destruct (first_center_wp X Xa s 1 HX Hne) as (c & s1 & E1 & -> & Hs1); [lia|].
  rewrite E in E1. set (c := fresh (dom (heap s))) in *.
  pose proof (fresh_loc_None s) as Hc. fold c in Hc.
  pose proof (seeding_X X c Xa s _ HX Hc _ _ Hs1) as HX1.
  assert (Ec1 : heap s1 !! c = Some (NdArray (ncols Xa) [x0])).
  { injection E1 as <-. simpl. apply lookup_insert_eq. }
  rewrite E1 in E. clear E1.
  exists x0. split; [done|].
  assert (Edone : ∀ s', heap s' !! c = Some (NdArray (ncols Xa) [x0]) →
            centers_of (G:=G) (Ok c, s') = Ok [x0]).
  { intros s' Es'. unfold centers_of. by rewrite Es'. }
  split; [|split; [|split]].
  - unfold kmpp. rewrite (bind_Ok _ _ _ _ _ E). by apply Edone.
  - unfold kmc2. rewrite (bind_Ok _ _ _ _ _ E). by apply Edone.
  - unfold afkmc2. rewrite (bind_Ok _ _ _ _ _ E).
    rewrite (bind_Ok _ _ _ _ _ (shape_eq _ _ _ HX1)). cbn beta iota.
    destruct (first_dists_wp X c Xa s _ HX Hc s1 Hs1) as (d2 & s2 & Ed2 & -> & _).
    rewrite (bind_Ok _ _ _ _ _ Ed2).
    rewrite (bind_Ok _ _ _ _ _ (proposal_eq d2 (length (rows Xa)) s1
               ltac:(destruct (rows Xa); simpl; [done|lia]))).
    by apply Edone.
  - unfold afkmc2_mem. rewrite (bind_Ok _ _ _ _ _ E).
    rewrite (bind_Ok _ _ _ _ _ (shape_eq _ _ _ HX1)). cbn beta iota.
    set (n := length (rows Xa)).
    set (ds := fresh (dom (heap s1))).
    pose proof (fresh_loc_None s1) as Hds. fold ds in Hds.
    set (D := NdArray (Z.to_nat 1) (map (λ i, map (uninit s1 i) (seq 0 (Z.to_nat 1)))
                                       (seq 0 n))).
    set (s2 := State (rng s1) (<[ds := D]> (heap s1)) (uninit s1)).
    rewrite (bind_Ok _ _ s1 ds s2) by done.
    assert (HXd : X ≠ ds) by (intros ->; congruence).
    assert (Hcd : c ≠ ds) by (intros E'; rewrite E' in Ec1; congruence).
    assert (Ht : table_for X c ds Xa (NdArray (ncols Xa) [x0]) s2).
    { split; [done|]. split; [done|]. unfold s2. cbn [heap].
      split; [by rewrite lookup_insert_ne|]. split; [by rewrite lookup_insert_ne|].
      exists D. split; [apply lookup_insert_eq|].
      split; [unfold D; simpl; by rewrite length_map, length_seq|].
      unfold D. simpl. apply Forall_forall. by intros r (i & -> & _)%list_elem_of_fmap. }
    destruct (wp_mapM (table_for X c ds Xa (NdArray (ncols Xa) [x0]))
                (λ _ _, True) (λ i, distance X c ds i 0) (seq 0 n) s2 Ht)
      as (d2 & s3 & Ed2 & _ & Ht3).
    { intros i s' Hi Hs'. apply elem_of_seq in Hi.
      eapply wp_mono; [apply (distance_total X c ds Xa _ i 0 s' Hs'); simpl; lia|].
      intros v s'' (? & _). done. }
    rewrite (bind_Ok _ _ _ _ _ Ed2).
    rewrite (bind_Ok _ _ _ _ _ (proposal_eq d2 n s3
               ltac:(unfold n; destruct (rows Xa); simpl; [done|lia]))).
    apply Edone. by destruct Ht3 as (_ & _ & _ & ? & _).
Qed.

(** X2: when the memory that [np.empty] hands out is zero, [afkmc2_mem]
    returns what [afkmc2] returns: the same centers after the same draws, or
    the same exception. *)
Theorem memo_table_is_transparent (X : loc) (Xa : ndarray) (k m : Z) s :
  zeroed s → heap s !! X = Some Xa →
  (afkmc2_mem X k m s).1 = (afkmc2 X k m s).1 ∧
  centers_of (afkmc2_mem X k m s) = centers_of (afkmc2 X k m s) ∧
  ∀ c, (afkmc2 X k m s).1 = Ok c →
    rng (afkmc2_mem X k m s).2 = rng (afkmc2 X k m s).2.
Proof.
  intros Hz HX.
  destruct (decide ((k < 1)%Z ∨ rows Xa = [])) as [Hbad|Hok].
  - pose proof (first_center_raises X Xa k s HX Hbad) as Hfc.
    pose proof (bind_raises (first_center X k) _ s _ Hfc
                : (afkmc2 X k m s).1 = _) as E1.
    pose proof (bind_raises (first_center X k) _ s _ Hfc
                : (afkmc2_mem X k m s).1 = _) as E2.
    destruct (afkmc2 X k m s) as [r1 s1], (afkmc2_mem X k m s) as [r2 s2].
    simpl in *. subst. split; [done|]. split; [done|]. by intros c.
  - assert (Hne : rows Xa ≠ []) by tauto. assert (Hk : (1 ≤ k)%Z) by lia.
    pose proof (afkmc2_mem_zeroed X Xa s k m Hz HX Hne Hk) as Heq.
    destruct (afkmc2 X k m s) as [[c1|e1] s1], (afkmc2_mem X k m s) as [[c2|e2] s2];
      try done.
    + destruct Heq as (-> & Hg & ds & _ & Hds & Hh). simpl.
      split; [done|]. split; [|done]. rewrite Hh.
      by rewrite lookup_delete_ne.
    + simpl. by subst.
Qed.

(** X3: when every cell of the table is zero or holds the squared distance
    of its point to its center, [distance(x, j)] returns the squared
    distance of point [x] to center [j] - also when that distance is zero
    and is computed again - and the table stays so. *)
Theorem memo_lookup_exact (X c ds : loc) (Xa ca : ndarray) (i x j : nat)
    (xr cr : list float) s :
  memo_ok X c ds i s → j < i →
  heap s !! X = Some Xa → heap s !! c = Some ca →
  rows Xa !! x = Some xr → rows ca !! j = Some cr →
  ∃ s', distance X c ds x j s = (Ok (sqdist xr cr), s') ∧
        memo_ok X c ds i s' ∧ rng s' = rng s ∧
        heap s' !! X = Some Xa ∧ heap s' !! c = Some ca.
Proof. apply distance_exact. Qed.

(** X4: a call [distance(i, j)] in range writes at most the cell [(i, j)]
    of the table and nothing else, and a second call returns the same value
    and writes nothing. *)
Theorem distance_idempotent (X c ds : loc) (Xa ca D : ndarray) (i j : nat) s :
  X ≠ ds → c ≠ ds →
  heap s !! X = Some Xa → heap s !! c = Some ca → heap s !! ds = Some D →
  length (rows D) = length (rows Xa) →
  Forall (λ r, length r = length (rows ca)) (rows D) →
  i < length (rows Xa) → j < length (rows ca) →
  ∃ v s' D',
    distance X c ds i j s = (Ok v, s') ∧
    distance X c ds i j s' = (Ok v, s') ∧
    rng s' = rng s ∧
    (∀ l, l ≠ ds → heap s' !! l = heap s !! l) ∧
    heap s' !! ds = Some D' ∧ cell D' i j = Some v ∧
    ∀ a b, a ≠ i ∨ b ≠ j → cell D' a b = cell D a b.
Proof.
  intros HXd Hcd HX Hc HD HlenD Hcols Hi Hj.
  destruct (lookup_lt_is_Some_2 (rows Xa) i Hi) as [xr Exr].
  destruct (lookup_lt_is_Some_2 (rows ca) j Hj) as [cr Ecr].
  destruct (lookup_lt_is_Some_2 (rows D) i) as [r Er]; [lia|].
  assert (Hlr : length r = length (rows ca)).
  { rewrite Forall_forall in Hcols. apply Hcols. by eapply list_elem_of_lookup_2. }
  destruct (lookup_lt_is_Some_2 r j) as [v0 Ev]; [lia|].
  pose proof (distance_eq X c ds Xa ca D i j r v0 xr cr s HX Hc HD Er Ev Exr Ecr) as E.
  destruct (Fis_zero v0) eqn:Ez.
  - set (v := sqdist xr cr) in *.
    set (D' := NdArray (ncols D) (<[i := <[j := v]> r]> (rows D))) in *.
    set (s' := State (rng s) (<[ds := D']> (heap s)) (uninit s)) in *.
    assert (Er' : rows D' !! i = Some (<[j := v]> r)).
    { simpl. apply list_lookup_insert_eq. by eapply lookup_lt_Some. }
    assert (Ev' : <[j := v]> r !! j = Some v).
    { apply list_lookup_insert_eq. by eapply lookup_lt_Some. }
    exists v, s', D'. split; [done|]. split; [|split; [done|split; [|split; [|split]]]].
    + rewrite (distance_eq X c ds Xa ca D' i j (<[j := v]> r) v xr cr s');
        [|simpl; by rewrite lookup_insert_ne
         |simpl; by rewrite lookup_insert_ne
         |simpl; apply lookup_insert_eq|done..].
      destruct (Fis_zero v); [|done]. f_equal. unfold s'. f_equal. cbn [heap rng uninit].
      rewrite insert_insert_eq. f_equal. unfold D'. cbn [rows ncols]. f_equal.
      by rewrite !list_insert_insert_eq.
    + intros l Hl. simpl. by rewrite lookup_insert_ne.
    + simpl. apply lookup_insert_eq.
    + unfold cell. rewrite Er'. simpl. exact Ev'.
    + intros a b Hab. unfold cell. simpl.
      destruct (decide (a = i)) as [->|Ha].
      * rewrite list_lookup_insert_eq by (by eapply lookup_lt_Some).
        rewrite Er. simpl. apply list_lookup_insert_ne. destruct Hab; congruence.
      * by rewrite list_lookup_insert_ne.
  - exists v0, s, D. split; [done|]. split; [done|]. split; [done|].
    split; [done|]. split; [done|]. split; [|done].
    unfold cell. by rewrite Er.
Qed.

End FurtherMemo.

(** ** Cumulative probabilities *)

(** The cumulative probability of the points [0 .. j] for the distances
    [vs]. *)
Definition cdf (vs : list Q) (j : nat) : Q := (Qsum (take (S j) vs) / Qsum vs)%Q.

Section Cumulative.

Local Open Scope Q_scope.
















End Cumulative.

(** ** The sampling distributions *)

Section FurtherSampling.

Context {G : Type} `{RandomSource G}.

Implicit Types (s : @state G) (cs : list (list float)).

Local Open Scope Q_scope.




(** A point whose least distance to the chosen centers is positive
    coincides with none of them. *)
Lemma positive_least_new Xa xr cs i d :
  valid_dataset Xa → xr ∈ rows Xa → Forall (λ r, r ∈ rows Xa) (take i cs) →
  least (dists_to xr cs i) d → positive d →
  Forall (λ cr, same_point xr cr = false) (take i cs).
Proof.
  intros Hvalid Hxr Hchosen Hleast (v & -> & Hv).
  destruct (valid_row Xa Hvalid xr Hxr) as [_ Hfx].
  apply Forall_forall. intros cr Hcr.
  destruct (same_point xr cr) eqn:Esame; [exfalso|done].
  assert (Hfc : Forall is_finite cr).
  { rewrite Forall_forall in Hchosen. by apply (valid_row Xa Hvalid), Hchosen. }
  destruct (least_zero (dists_to xr cs i) (Finite v)) as (w & [= <-] & Hw);
    [| |done|lra].
  - apply Forall_forall. intros d [cr' [-> Hcr']]%list_elem_of_fmap.
    apply sqdist_nonneg; [done|].
    rewrite Forall_forall in Hchosen. by apply (valid_row Xa Hvalid), Hchosen.
  - apply Exists_exists. exists (sqdist xr cr). split.
    + apply list_elem_of_fmap. by exists cr.
    + by apply sqdist_same.
Qed.




End FurtherSampling.

(** ** The chains *)

Section FurtherChains.

Context {G : Type} `{RandomSource G}.

Implicit Types (s : @state G) (cs : list (list float)).

Local Open Scope Q_scope.

(** The test [dy2/dx2 > u] without the division: for distances that are
    not negative it holds exactly when [u * dx2 < dy2], also for [dx2]
    zero, where the quotient is infinite or NaN. *)
Lemma accept_rule vy vx u :
  0 <= vx → 0 <= vy → 0 <= u →
  Fgtb (Fdiv (Finite vy) (Finite vx)) (Finite u) = true ↔ u * vx < vy.
Proof.
  intros Hx Hy Hu. unfold Fgtb. cbn [Fdiv].
  destruct (Qeq_bool vx 0) eqn:Ez.
  - apply Qeq_bool_iff in Ez.
    assert (E0 : u * vx == 0) by (rewrite Ez; ring).
    unfold inf_of_sign. destruct (vy ?= 0) eqn:C.
    + apply Qeq_alt in C. simpl. split; [done|]. intros. lra.
    + apply Qlt_alt in C. lra.
    + apply Qgt_alt in C. simpl. split; [intros _; lra|done].
  - assert (Hpos : 0 < vx).
    { apply Qeq_bool_neq in Ez. destruct (Qlt_le_dec 0 vx); [done|].
      exfalso. apply Ez. lra. }
    cbn [Fltb]. unfold Qltb. rewrite negb_true_iff. split.
    + intros Hf. destruct (Qlt_le_dec (u * vx) vy) as [|Hle]; [done|exfalso].
      assert (Hd : vy / vx <= u) by (by apply Qle_shift_div_r).
      apply Qle_bool_iff in Hd. congruence.
    + intros Hlt. apply not_true_iff_false. intros Hle%Qle_bool_iff.
      assert (u < vy / vx) by (by apply Qlt_shift_div_l). lra.
Qed.

(** A point of the dataset that coincides with none of the first [i]
    centers. *)
Definition new_point (Xa : ndarray) cs (i x : nat) : Prop :=
  ∃ xr, rows Xa !! x = Some xr ∧
        Forall (λ cr, same_point xr cr = false) (take i cs).



(** An invariant of the steps is an invariant of the chain. *)
Lemma repeat_step_inv {T} (Inv : T → Prop) (step : T → M T) s :
  (∀ st g, Inv st →
     ∃ st' g', step st (set_rng g s) = (Ok st', set_rng g' s) ∧ Inv st') →
  ∀ t st g, Inv st →
     ∃ st' g', repeat_step t step st (set_rng g s) = (Ok st', set_rng g' s) ∧ Inv st'.
Proof.
  intros Hstep t. induction t as [|t IH]; intros st g HI.
  - by exists st, g.
  - destruct (Hstep st g HI) as (st1 & g1 & E1 & HI1).
    destruct (IH st1 g1 HI1) as (st2 & g2 & E2 & HI2).
    exists st2, g2. split; [|done].
    cbn [repeat_step]. by rewrite (bind_Ok _ _ _ _ _ E1).
Qed.

(** The candidates of a chain that starts at a new point: an index of the
    dataset, its positive distance, a new point. *)
Definition new_candidate (Xa : ndarray) cs (i : nat) (st : nat * float) : Prop :=
  positive st.2 ∧ new_point Xa cs i st.1.

(** X11: a chain of [kmc2] whose first candidate coincides with none of
    the centers chosen before stores a point that coincides with none of
    them, whatever the further draws. *)
Theorem uniform_chain_new_point (X c : loc) (Xa : ndarray) (cs : list (list float))
    (k i : nat) (m : Z) (s0 s : @state G) :
  heap s0 !! X = Some Xa → heap s0 !! c = None → valid_dataset Xa →
  (1 ≤ i < k)%nat →
  seeding c Xa s0 k i s → heap s !! c = Some (NdArray (ncols Xa) cs) →
  new_point Xa cs i (rand_index (length (rows Xa)) (rng s)).1 →
  ∃ x xr g,
    rows Xa !! x = Some xr ∧
    Forall (λ cr, same_point xr cr = false) (take i cs) ∧
    kmc2_iter X c m i s =
      (Ok (), State g (<[c := NdArray (ncols Xa) (<[i := xr]> cs)]> (heap s))
                    (uninit s)).
Proof.
  intros HX Hc Hvalid Hi Hs Ecs (xr0 & Exr0 & Hnew0).
  destruct (seeding_centers _ _ _ _ _ _ Hs) as (cs' & Ecs' & Hlen & Hrows).
  assert (cs' = cs) as -> by congruence.
  pose proof (chosen_rows Xa _ _ Hrows) as Hchosen.
  pose proof (seeding_X X c Xa s0 _ HX Hc _ _ Hs) as HXs.
  assert (Hne : rows Xa ≠ []) by (intros E; by rewrite E in Exr0).
  set (n := length (rows Xa)) in *.
  assert (Hn : n ≠ 0%nat) by (unfold n; destruct (rows Xa); simpl; [done|lia]).
  set (x0 := (rand_index n (rng s)).1) in *.
  set (g0 := (rand_index n (rng s)).2).
  destruct (min_dist_eq X c Xa cs x0 xr0 i (set_rng g0 s) HXs Exr0 Ecs)
    as (d0 & Hd0 & Ed0); [lia..|].
  assert (Hinv : ∀ st g, new_candidate Xa cs i st →
    ∃ st' g', kmc2_step X c n i st 0 (set_rng g s) = (Ok st', set_rng g' s)
              ∧ new_candidate Xa cs i st').
  { intros [x1 d1] g [(v1 & E1 & Hv1) Hnew1]. simpl in E1, Hnew1. subst d1.
    destruct (kmc2_step_eq X c Xa cs i x1 (Finite v1) 0 (set_rng g s) HXs Hne Ecs)
      as (yr & dy2 & Eyr & Hdy2 & Hu0 & Hu1 & E); [lia..|].
    fold n in E, Eyr. rewrite E.
    eexists _, _. split; [reflexivity|].
    destruct (dists_nonneg Xa Hvalid yr i cs dy2) as (vy & -> & Hvy);
      [by eapply list_elem_of_lookup_2|done..|].
    destruct (Fgtb _ _) eqn:Eg.
    - apply accept_rule in Eg; [|lra|done|done].
      assert (0 <= (rand_uniform (rand_index n (rng (set_rng g s))).2).1 * v1).
      { apply Qmult_le_0_compat; [done|lra]. }
      assert (Hpos : positive (Finite vy)) by (exists vy; split; [done|lra]).
      split; [done|]. exists yr. split; [done|].
      eapply (positive_least_new Xa); [done|by eapply list_elem_of_lookup_2|done..].
    - split; [by exists v1|done]. }
  destruct (repeat_step_inv (new_candidate Xa cs i)
              (λ st, kmc2_step X c n i st 0) s Hinv (Z.to_nat (m - 1)) (x0, d0) g0)
    as ([x1 d1] & g1 & Echain & _ & xr1 & Exr1 & Hnew1).
  { split; [|by exists xr0]. simpl.
    eapply (dists_positive Xa); [done|by eapply list_elem_of_lookup_2|done..]. }
  simpl in Exr1, Hnew1.
  exists x1, xr1, g1. split; [done|]. split; [done|].
  rewrite kmc2_iter_chain.
  rewrite (bind_Ok _ _ _ _ _ (shape_eq X Xa s HXs)). cbn beta iota. fold n.
  rewrite (bind_Ok _ _ _ _ _ (random_choice_eq n s Hn)). fold x0 g0.
  rewrite (bind_Ok _ _ _ _ _ Ed0).
  rewrite (bind_Ok _ _ _ _ _ Echain). cbn beta iota.
  rewrite (bind_Ok _ _ _ _ _ (get_row_eq X Xa x1 xr1 (set_rng g1 s) HXs Exr1)).
  rewrite (set_row_eq c (NdArray (ncols Xa) cs) i xr1 (set_rng g1 s) Ecs);
    [done|simpl; lia].
Qed.

(** X12: a chain of [afkmc2], over a vector of probabilities [q], whose
    first candidate coincides with none of the centers chosen before
    stores a point that coincides with none of them. *)
Theorem weighted_chain_new_point (X c : loc) (Xa : ndarray) (cs : list (list float))
    (q : list float) (k i x0 : nat) (m : Z) (s0 s : @state G) :
  heap s0 !! X = Some Xa → heap s0 !! c = None → valid_dataset Xa →
  (1 ≤ i < k)%nat →
  seeding c Xa s0 k i s → heap s !! c = Some (NdArray (ncols Xa) cs) →
  length q = length (rows Xa) → prob_vector q →
  (rand_weighted q (rng s)).1 = Some x0 → new_point Xa cs i x0 →
  ∃ x xr g,
    rows Xa !! x = Some xr ∧
    Forall (λ cr, same_point xr cr = false) (take i cs) ∧
    afkmc2_iter X c q m i s =
      (Ok (), State g (<[c := NdArray (ncols Xa) (<[i := xr]> cs)]> (heap s))
                    (uninit s)).
Proof.
  intros HX Hc Hvalid Hi Hs Ecs Hlen Hq Ex0 (xr0 & Exr0 & Hnew0).
  destruct (seeding_centers _ _ _ _ _ _ Hs) as (cs' & Ecs' & Hlenc & Hrows).
  assert (cs' = cs) as -> by congruence.
  pose proof (chosen_rows Xa _ _ Hrows) as Hchosen.
  pose proof (seeding_X X c Xa s0 _ HX Hc _ _ Hs) as HXs.
  set (n := length (rows Xa)) in *.
  set (g0 := (rand_weighted q (rng s)).2).
  destruct (random_choice_p_eq n q s Hlen Hq) as (x0' & Ex0' & _ & Edraw).
  assert (x0' = x0) as -> by congruence. fold g0 in Edraw.
  destruct (min_dist_eq X c Xa cs x0 xr0 i (set_rng g0 s) HXs Exr0 Ecs)
    as (d0 & Hd0 & Ed0); [lia..|].
  assert (Hinv : ∀ st g, new_candidate Xa cs i st →
    ∃ st' g', af_step (λ y, min_dist X c y i) n q st 0 (set_rng g s)
                = (Ok st', set_rng g' s)
              ∧ new_candidate Xa cs i st').
  { intros [x1 d1] g [(v1 & E1 & Hv1) Hnew1]. simpl in E1, Hnew1. subst d1.
    assert (Hx1 : (x1 < n)%nat).
    { destruct Hnew1 as (xr1 & Exr1 & _). by eapply lookup_lt_Some. }
    destruct (af_step_eq X c Xa cs q i x1 (Finite v1) 0 (set_rng g s) HXs Ecs)
      as (y & yr & dy2 & fx & fy & Ey & Eyr & Hdy2 & Efx & Efy & Hu0 & Hu1 & E);
      [lia|lia|done..|].
    fold n in E. rewrite E.
    eexists _, _. split; [reflexivity|].
    destruct (dists_nonneg Xa Hvalid yr i cs dy2) as (vy & -> & Hvy);
      [by eapply list_elem_of_lookup_2|done..|].
    destruct Hq as (_ & Hnn & _).
    destruct (Forall_lookup_1 _ _ _ _ Hnn Efx) as (qx & -> & Hqx).
    destruct (Forall_lookup_1 _ _ _ _ Hnn Efy) as (qy & -> & Hqy).
    destruct (Fgtb _ _) eqn:Eg.
    - cbn [Fmul] in Eg.
      apply accept_rule in Eg;
        [|apply Qmult_le_0_compat; lra|by apply Qmult_le_0_compat|done].
      assert (0 <= (rand_uniform (rand_weighted q (rng (set_rng g s))).2).1
                   * (v1 * qy)).
      { apply Qmult_le_0_compat; [done|]. apply Qmult_le_0_compat; lra. }
      assert (Hpos : positive (Finite vy)).
      { exists vy. split; [done|]. destruct (Qlt_le_dec 0 vy) as [|Hle]; [done|].
        assert (Ez : vy == 0) by lra. rewrite Ez in Eg. lra. }
      split; [done|]. exists yr. split; [done|].
      eapply (positive_least_new Xa); [done|by eapply list_elem_of_lookup_2|done..].
    - split; [by exists v1|done]. }
  destruct (repeat_step_inv (new_candidate Xa cs i)
              (λ st, af_step (λ y, min_dist X c y i) n q st 0) s Hinv
              (Z.to_nat (m - 1)) (x0, d0) g0)
    as ([x1 d1] & g1 & Echain & _ & xr1 & Exr1 & Hnew1).
  { split; [|by exists xr0]. simpl.
    eapply (dists_positive Xa); [done|by eapply list_elem_of_lookup_2|done..]. }
  simpl in Exr1, Hnew1.
  exists x1, xr1, g1. split; [done|]. split; [done|].
  assert (Eaf : af_iter (λ y, min_dist X c y i) X c q m s = (Ok x1, set_rng g1 s)).
  { rewrite af_iter_chain.
    rewrite (bind_Ok _ _ _ _ _ (shape_eq X Xa s HXs)). cbn beta iota. fold n.
    rewrite (bind_Ok _ _ _ _ _ Edraw).
    rewrite (bind_Ok _ _ _ _ _ Ed0).
    by rewrite (bind_Ok _ _ _ _ _ Echain). }
  unfold afkmc2_iter.
  rewrite (bind_Ok _ _ _ _ _ Eaf).
  rewrite (bind_Ok _ _ _ _ _ (get_row_eq X Xa x1 xr1 (set_rng g1 s) HXs Exr1)).
  rewrite (set_row_eq c (NdArray (ncols Xa) cs) i xr1 (set_rng g1 s) Ecs);
    [done|simpl; lia].
Qed.

End FurtherChains.

(** ** Whole runs *)








Section WholeRuns.

Context {G : Type} `{RandomSource G}.

Implicit Types (s : @state G) (cs : list (list float)).



(** X14: on a dataset whose points all coincide [kmpp] raises [IndexError]
    for every [k >= 2], whatever the draws: after the first center every
    distance is zero. *)
Theorem kmpp_coinciding_dataset (X : loc) (Xa : ndarray) (k : Z) s :
  heap s !! X = Some Xa → valid_dataset Xa → rows Xa ≠ [] →
  (∀ x y, x ∈ rows Xa → y ∈ rows Xa → same_point x y = true) →
  (2 ≤ k)%Z →
  (kmpp X k s).1 = Raise IndexError.
Proof. apply kmpp_all_coincide. Qed.

(** X15: with [m <= 1] a chain makes no step: an iteration of [kmc2] stores
    the point it draws uniformly, and an iteration of [afkmc2] the point it
    draws from [q], whatever the distances are. *)
Theorem short_chain (X c : loc) (Xa : ndarray) (cs : list (list float))
    (q : list float) (k i : nat) (m : Z) (s0 s : @state G) :
  heap s0 !! X = Some Xa → heap s0 !! c = None → rows Xa ≠ [] →
  1 ≤ i < k →
  seeding c Xa s0 k i s → heap s !! c = Some (NdArray (ncols Xa) cs) →
  (m ≤ 1)%Z →
  let n := length (rows Xa) in
  (∃ xr, rows Xa !! (rand_index n (rng s)).1 = Some xr ∧
     kmc2_iter X c m i s =
       (Ok (), State (rand_index n (rng s)).2
                     (<[c := NdArray (ncols Xa) (<[i := xr]> cs)]> (heap s))
                     (uninit s))) ∧
  (length q = n → prob_vector q →
   ∃ x xr, (rand_weighted q (rng s)).1 = Some x ∧ rows Xa !! x = Some xr ∧
     afkmc2_iter X c q m i s =
       (Ok (), State (rand_weighted q (rng s)).2
                     (<[c := NdArray (ncols Xa) (<[i := xr]> cs)]> (heap s))
                     (uninit s))).
Proof.
  intros HX Hc Hne Hi Hs Ecs Hm n.
  destruct (seeding_centers _ _ _ _ _ _ Hs) as (cs' & Ecs' & Hlen & Hrows).
  assert (cs' = cs) as -> by congruence.
  pose proof (seeding_X X c Xa s0 _ HX Hc _ _ Hs) as HXs.
  assert (Hn : n ≠ 0) by (unfold n; destruct (rows Xa); simpl; [done|lia]).
  assert (Hm0 : Z.to_nat (m - 1) = 0) by lia.
  split.
  - set (x0 := (rand_index n (rng s)).1). set (g0 := (rand_index n (rng s)).2).
    assert (Hx0 : x0 < n) by (apply rand_index_lt; lia).
    destruct (lookup_lt_is_Some_2 _ _ Hx0) as [xr Exr].
    exists xr. split; [done|].
    destruct (min_dist_eq X c Xa cs x0 xr i (set_rng g0 s) HXs Exr Ecs)
      as (d0 & Hd0 & Ed0); [lia..|].
    rewrite kmc2_iter_chain, Hm0.
    rewrite (bind_Ok _ _ _ _ _ (shape_eq X Xa s HXs)). cbn beta iota. fold n.
    rewrite (bind_Ok _ _ _ _ _ (random_choice_eq n s Hn)). fold x0 g0.
    rewrite (bind_Ok _ _ _ _ _ Ed0).
    cbn [repeat_step].
    rewrite (bind_Ok _ _ (set_rng g0 s) (x0, d0) (set_rng g0 s)) by done.
    cbn beta iota.
    rewrite (bind_Ok _ _ _ _ _ (get_row_eq X Xa x0 xr (set_rng g0 s) HXs Exr)).
    rewrite (set_row_eq c (NdArray (ncols Xa) cs) i xr (set_rng g0 s) Ecs);
      [done|simpl; lia].
  - intros Hlenq Hq.
    destruct (random_choice_p_eq n q s Hlenq Hq) as (x0 & Ex0 & Hx0 & Edraw).
    set (g0 := (rand_weighted q (rng s)).2) in *.
    destruct (lookup_lt_is_Some_2 (rows Xa) x0 Hx0) as [xr Exr].
    exists x0, xr. split; [done|]. split; [done|].
    destruct (min_dist_eq X c Xa cs x0 xr i (set_rng g0 s) HXs Exr Ecs)
      as (d0 & Hd0 & Ed0); [lia..|].
    assert (Eaf : af_iter (λ y, min_dist X c y i) X c q m s = (Ok x0, set_rng g0 s)).
    { rewrite af_iter_chain, Hm0.
      rewrite (bind_Ok _ _ _ _ _ (shape_eq X Xa s HXs)). cbn beta iota. fold n.
      rewrite (bind_Ok _ _ _ _ _ Edraw).
      by rewrite (bind_Ok _ _ _ _ _ Ed0). }
    unfold afkmc2_iter.
    rewrite (bind_Ok _ _ _ _ _ Eaf).
    rewrite (bind_Ok _ _ _ _ _ (get_row_eq X Xa x0 xr (set_rng g0 s) HXs Exr)).
    rewrite (set_row_eq c (NdArray (ncols Xa) cs) i xr (set_rng g0 s) Ecs);
      [done|simpl; lia].
Qed.


End WholeRuns.

(** ** A scripted source without the draw 0

    The draws of a script, the uniform ones moved into [(0, 1)]: entry [t]
    gives [(t mod 15 + 1) / 16]. *)

Inductive nz_script : Type := NZ (g : script).

Definition nz_index (n : nat) (g : nz_script) : nat * nz_script :=
  let '(NZ g) := g in ((script_index n g).1, NZ (script_index n g).2).

Definition nz_u (t : nat) : Q := ((inject_Z (Z.of_nat (t mod 15)) + 1) / 16)%Q.

Definition nz_uniform (g : nz_script) : Q * nz_script :=
  match g with
  | NZ [] => ((1 # 2)%Q, NZ [])
  | NZ (t :: g') => (nz_u t, NZ g')
  end.

Definition nz_weighted (p : list float) (g : nz_script) : option nat * nz_script :=
  let '(NZ g) := g in ((script_weighted p g).1, NZ (script_weighted p g).2).

Lemma nz_index_lt n g : 0 < n → (nz_index n g).1 < n.
Proof. destruct g as [g]. apply script_index_lt. Qed.

Lemma nz_u_range t : (0 < nz_u t)%Q ∧ (nz_u t < 1)%Q.
Proof.
  unfold nz_u.
  assert (Hb : t mod 15 < 15) by (apply Nat.mod_upper_bound; lia).
  assert (H0 : (0 <= inject_Z (Z.of_nat (t mod 15)))%Q).
  { change 0%Q with (inject_Z 0). rewrite <- Zle_Qle. lia. }
  assert (H1 : (inject_Z (Z.of_nat (t mod 15)) < 15)%Q).
  { change 15%Q with (inject_Z 15). rewrite <- Zlt_Qlt. lia. }
  split.
  - apply Qlt_shift_div_l; lra.
  - apply Qlt_shift_div_r; lra.
Qed.

Lemma nz_uniform_pos g : (0 < (nz_uniform g).1)%Q.
Proof.
  destruct g as [[|t g]]; unfold nz_uniform; cbn [fst]; [reflexivity|].
  apply nz_u_range.
Qed.

Lemma nz_uniform_range g : (0 <= (nz_uniform g).1)%Q ∧ ((nz_uniform g).1 < 1)%Q.
Proof.
  split; [apply Qlt_le_weak, nz_uniform_pos|].
  destruct g as [[|t g]]; unfold nz_uniform; cbn [fst]; [reflexivity|].
  apply nz_u_range.
Qed.

Lemma nz_weighted_lt p g : prob_vector p →
  ∃ i, (nz_weighted p g).1 = Some i ∧ i < length p.
Proof. destruct g as [g]. apply script_weighted_lt. Qed.

#[export] Instance nz_source : RandomSource nz_script := {|
  rand_index := nz_index;
  rand_uniform := nz_uniform;
  rand_weighted := nz_weighted;
  rand_index_lt := nz_index_lt;
  rand_uniform_range := nz_uniform_range;
  rand_weighted_lt := nz_weighted_lt
|}.

(** ** Instances of the further properties *)

(** The dataset of a line, two centers and a table of distances, at the
    references 1, 2 and 3. *)
Definition state_with_table (g : script) (D : list (list float)) : @state script :=
  State g {[ 1%positive := X_line;
             2%positive := NdArray 1 [[fl 0]; [fl 3]];
             3%positive := NdArray 2 D ]} zero_memory.

Lemma single_center_witness :
  let s := state_of [2] X_clusters stale_memory in
  ∃ x0, rows X_clusters !! (rand_index 4 (rng s)).1 = Some x0 ∧
    centers_of (kmpp 1%positive 1 s) = Ok [x0] ∧
    centers_of (kmc2 1%positive 1 5 s) = Ok [x0] ∧
    centers_of (afkmc2 1%positive 1 5 s) = Ok [x0] ∧
    centers_of (afkmc2_mem 1%positive 1 5 s) = Ok [x0].
Proof.
  intros s. apply (single_center 1%positive X_clusters 5 s).
  - reflexivity.
  - discriminate.
Defined.

Lemma short_chain_witness :
  let Xa := X_clusters in
  let cs := [[fl 0; fl 0]; [fl 0; fl 0]] in
  let s0 := state_of [0; 2] Xa zero_memory in
  let s := state_with_centers [2] Xa cs zero_memory in
  let X := 1%positive in
  let c := 2%positive in
  (∃ xr, rows Xa !! (rand_index 4 (rng s)).1 = Some xr ∧
     kmc2_iter X c 0 1 s =
       (Ok (), State (rand_index 4 (rng s)).2
                     (<[c := NdArray (ncols Xa) (<[1 := xr]> cs)]> (heap s))
                     (uninit s))) ∧
  (∃ x xr, (rand_weighted q_uniform4 (rng s)).1 = Some x ∧ rows Xa !! x = Some xr ∧
     afkmc2_iter X c q_uniform4 0 1 s =
       (Ok (), State (rand_weighted q_uniform4 (rng s)).2
                     (<[c := NdArray (ncols Xa) (<[1 := xr]> cs)]> (heap s))
                     (uninit s))).
Proof.
  intros Xa cs s0 s X c.
  destruct (short_chain X c Xa cs q_uniform4 2 1 0 s0 s) as [Hk Haf].
  - reflexivity.
  - reflexivity.
  - discriminate.
  - lia.
  - split; [reflexivity|]. exists cs.
    split; [reflexivity|]. split; [reflexivity|].
    intros j Hj. exists [fl 0; fl 0]. destruct j as [|j]; [|lia].
    split; [reflexivity|]. constructor.
  - reflexivity.
  - lia.
  - split; [exact Hk|]. apply Haf; [reflexivity|exact q_uniform4_prob_vector].
Defined.

Lemma memo_table_is_transparent_witness :
  let s := state_of [0; 2; 1; 3; 5; 10] X_clusters zero_memory in
  (afkmc2_mem 1%positive 2 3 s).1 = (afkmc2 1%positive 2 3 s).1 ∧
  centers_of (afkmc2_mem 1%positive 2 3 s) = centers_of (afkmc2 1%positive 2 3 s) ∧
  ∀ c, (afkmc2 1%positive 2 3 s).1 = Ok c →
       rng (afkmc2_mem 1%positive 2 3 s).2 = rng (afkmc2 1%positive 2 3 s).2.
Proof.
  intros s. apply (memo_table_is_transparent 1%positive X_clusters 2 3 s).
  - intros i j. reflexivity.
  - reflexivity.
Defined.

Lemma memo_lookup_exact_witness :
  let s := state_with_table [] [[fl 0; fl 0]; [fl 1; fl 0]; [fl 0; fl 0]] in
  ∃ s', distance 1%positive 2%positive 3%positive 2 0 s = (Ok (sqdist [fl 3] [fl 0]), s') ∧
        memo_ok 1%positive 2%positive 3%positive 1 s' ∧ rng s' = rng s ∧
        heap s' !! 1%positive = Some X_line ∧
        heap s' !! 2%positive = Some (NdArray 1 [[fl 0]; [fl 3]]).
Proof.
  intros s.
  apply (memo_lookup_exact 1%positive 2%positive 3%positive X_line
           (NdArray 1 [[fl 0]; [fl 3]]) 1 2 0 [fl 3] [fl 0] s).
  - split; [discriminate|]. split; [discriminate|]. split; [discriminate|].
    exists X_line, (NdArray 1 [[fl 0]; [fl 3]]),
           (NdArray 2 [[fl 0; fl 0]; [fl 1; fl 0]; [fl 0; fl 0]]).
    split; [reflexivity|]. split; [reflexivity|]. split; [reflexivity|].
    split; [reflexivity|]. split; [repeat constructor|].
    intros a b r v Er Ev.
    destruct a as [|[|[|a]]]; simpl in Er; try discriminate;
      injection Er as <-;
      destruct b as [|[|b]]; simpl in Ev; try discriminate;
      injection Ev as <-; try (left; reflexivity).
    right. split; [lia|]. exists [fl 1], [fl 0]. done.
  - lia.
  - reflexivity.
  - reflexivity.
  - reflexivity.
  - reflexivity.
Defined.

Lemma distance_idempotent_witness :
  let D := NdArray 2 [[fl 5; fl 0]; [fl 0; fl 0]; [fl 0; fl 7]] in
  let s := state_with_table [4] (rows D) in
  ∃ v s' D',
    distance 1%positive 2%positive 3%positive 2 0 s = (Ok v, s') ∧
    distance 1%positive 2%positive 3%positive 2 0 s' = (Ok v, s') ∧
    rng s' = rng s ∧
    (∀ l, l ≠ 3%positive → heap s' !! l = heap s !! l) ∧
    heap s' !! 3%positive = Some D' ∧ cell D' 2 0 = Some v ∧
    ∀ a b, a ≠ 2 ∨ b ≠ 0 → cell D' a b = cell D a b.
Proof.
  intros D s.
  apply (distance_idempotent 1%positive 2%positive 3%positive X_line
           (NdArray 1 [[fl 0]; [fl 3]]) D 2 0 s).
  - discriminate.
  - discriminate.
  - reflexivity.
  - reflexivity.
  - reflexivity.
  - reflexivity.
  - repeat constructor.
  - simpl. lia.
  - simpl. lia.
Defined.







Lemma uniform_chain_new_point_witness :
  let Xa := X_clusters in
  let cs := [[fl 0; fl 0]; [fl 0; fl 0]] in
  let s := state_with_centers [2; 1; 8; 3; 15] Xa cs zero_memory in
  ∃ x xr g,
    rows Xa !! x = Some xr ∧
    Forall (λ cr, same_point xr cr = false) (take 1 cs) ∧
    kmc2_iter 1%positive 2%positive 3 1 s =
      (Ok (), State g (<[2%positive := NdArray (ncols Xa) (<[1 := xr]> cs)]> (heap s))
                    (uninit s)).
Proof.
  intros Xa cs s.
  apply (uniform_chain_new_point 1%positive 2%positive Xa cs 2 1 3
           (state_of [0; 2; 1; 8; 3; 15] Xa zero_memory) s).
  - reflexivity.
  - reflexivity.
  - repeat constructor.
  - lia.
  - split; [reflexivity|]. exists cs.
    split; [reflexivity|]. split; [reflexivity|].
    intros j Hj. exists [fl 0; fl 0]. destruct j as [|j]; [|lia].
    split; [reflexivity|]. constructor.
  - reflexivity.
  - exists [fl 10; fl 0]. split; [reflexivity|]. repeat constructor.
Defined.

Lemma weighted_chain_new_point_witness :
  let Xa := X_clusters in
  let cs := [[fl 0; fl 0]; [fl 0; fl 0]] in
  let s := state_with_centers [8; 1; 8; 12; 15] Xa cs zero_memory in
  ∃ x xr g,
    rows Xa !! x = Some xr ∧
    Forall (λ cr, same_point xr cr = false) (take 1 cs) ∧
    afkmc2_iter 1%positive 2%positive q_uniform4 3 1 s =
      (Ok (), State g (<[2%positive := NdArray (ncols Xa) (<[1 := xr]> cs)]> (heap s))
                    (uninit s)).
Proof.
  intros Xa cs s.
  apply (weighted_chain_new_point 1%positive 2%positive Xa cs q_uniform4 2 1 2 3
           (state_of [0; 8; 1; 8; 12; 15] Xa zero_memory) s).
  - reflexivity.
  - reflexivity.
  - repeat constructor.
  - lia.
  - split; [reflexivity|]. exists cs.
    split; [reflexivity|]. split; [reflexivity|].
    intros j Hj. exists [fl 0; fl 0]. destruct j as [|j]; [|lia].
    split; [reflexivity|]. constructor.
  - reflexivity.
  - reflexivity.
  - exact q_uniform4_prob_vector.
  - reflexivity.
  - exists [fl 10; fl 0]. split; [reflexivity|]. repeat constructor.
Defined.



Lemma kmpp_coinciding_dataset_witness :
  (kmpp 1%positive 2 (state_of [1; 5] X_twice zero_memory)).1 = Raise IndexError.
Proof.
  apply (kmpp_coinciding_dataset 1%positive X_twice 2).
  - reflexivity.
  - repeat constructor.
  - discriminate.
  - intros x y Hx Hy.
    repeat (apply elem_of_cons in Hx as [->|Hx]);
      repeat (apply elem_of_cons in Hy as [->|Hy]);
      try reflexivity; by apply elem_of_nil in Hx || by apply elem_of_nil in Hy.
  - lia.
Defined.
